(** * stream_ml: parameter bounds, priors, scalers and mixture aggregation

    A shallow embedding of the parts of [stream_ml] that carry the
    parameter-naming data model and the mixture composition:

    - [stream_ml/core/prior/bounds.py]   ([PriorBounds], [NoBounds])
    - [stream_ml/core/params/bounds.py]  ([ParamBounds])
    - [stream_ml/core/utils/scale/_multi.py] ([CompoundDataScaler])
    - [stream_ml/jax/mixture.py]         ([MixtureModel])
    - [stream_ml/pytorch/background/base.py] ([BackgroundModel])
    - [stream_ml/pytorch/prior/weight.py] ([BoundedHardThreshold])

    Python exceptions are values of an error monad, dictionaries are
    insertion-ordered association lists and two-dimensional arrays are lists
    of rows.  Bounds and thresholds are the kernel's binary64 floats, and the
    entries of a torch tensor are the values of its dtype written as such
    floats; the entries of likelihood arrays are real numbers, and the
    scalers are generic in the entries they transform. *)

From Stdlib Require Import List String Bool Arith ZArith Lia Permutation.
From Stdlib Require Import Floats.
From Stdlib Require Import Reals.
Import ListNotations.

Set Implicit Arguments.

(* ================================================================== *)
(** * Python exceptions as an error monad *)

Module Py.

Inductive exn : Type :=
| TypeError
| ValueError
| KeyError
| IndexError
| RuntimeError.

Inductive result (A : Type) : Type :=
| Ok (a : A)
| Raise (e : exn).

Arguments Ok {A} a.
Arguments Raise {A} e.

Definition bind {A B : Type} (m : result A) (k : A -> result B) : result B :=
  match m with
  | Ok a => k a
  | Raise e => Raise e
  end.

Definition succeeds {A : Type} (m : result A) : Prop :=
  exists a, m = Ok a.

(** [for x in xs: acc = body(acc, x)], stopping at the first exception. *)
Fixpoint for_each {A S : Type} (body : S -> A -> result S) (xs : list A) (acc : S)
  : result S :=
  match xs with
  | [] => Ok acc
  | x :: rest => bind (body acc x) (for_each body rest)
  end.

(** A comprehension [tuple(f(x) for x in xs)] whose body may raise. *)
Fixpoint traverse {A B : Type} (f : A -> result B) (xs : list A) : result (list B) :=
  match xs with
  | [] => Ok []
  | x :: rest =>
      bind (f x) (fun y => bind (traverse f rest) (fun ys => Ok (y :: ys)))
  end.

End Py.

Import Py.

Declare Scope py_scope.
Delimit Scope py_scope with py.
Notation "x <- m ;; k" := (Py.bind m (fun x => k))
  (at level 61, m at next level, right associativity) : py_scope.
Open Scope py_scope.

(* ================================================================== *)
(** * [stream_ml/core/prior/bounds.py] *)

Module Prior.

(** A flat parameter name: [("weight",)] or [("phi2", "mu")]. *)
Definition FlatParamName : Type := list string.

(** The concrete class of a bound: [NoBounds] is the only subclass defined
    next to the abstract base; every other subclass is identified by its
    class name. *)
Inductive PriorClass : Type :=
| NoBoundsClass
| SubClass (name : string).

(** The dataclass fields: [lower], [upper] and keyword-only [param_name]. *)
Record PriorBounds : Type := mkPriorBounds {
  prior_class : PriorClass;
  lower : float;
  upper : float;
  param_name : option FlatParamName
}.

Definition inf : float := infinity.
Definition neg_inf : float := neg_infinity.

(** Python's [x != y] on floats. *)
Definition float_ne (x y : float) : bool := negb (PrimFloat.eqb x y).

(** [NoBounds.__post_init__] *)
Definition NoBounds_post_init (self : PriorBounds) : result unit :=
  if float_ne (lower self) neg_inf || float_ne (upper self) inf
  then Raise ValueError
  else Ok tt.

(** The dataclass-generated [NoBounds.__init__]: the fields are stored, then
    [__post_init__] runs. *)
Definition NoBounds_init (lo hi : float) (pn : option FlatParamName)
  : result PriorBounds :=
  let self := mkPriorBounds NoBoundsClass lo hi pn in
  _ <- NoBounds_post_init self ;;
  Ok self.

(** [NoBounds()]: both fields take their defaults. *)
Definition NoBounds_default : result PriorBounds :=
  NoBounds_init neg_inf inf None.

(** [dataclasses.replace(b, param_name=pn)]: a new instance of the same class
    is built from the fields of [b] with [param_name] replaced; for [NoBounds]
    this runs [__post_init__] again. *)
Definition replace_param_name (b : PriorBounds) (pn : FlatParamName)
  : result PriorBounds :=
  match prior_class b with
  | NoBoundsClass => NoBounds_init (lower b) (upper b) (Some pn)
  | SubClass c => Ok (mkPriorBounds (SubClass c) (lower b) (upper b) (Some pn))
  end.

(** [PriorBounds.as_tuple] / [bounds] *)
Definition as_tuple (self : PriorBounds) : float * float :=
  (lower self, upper self).

(** [NoBounds.logpdf(mpars, data, model, current_lnpdf=None)]; the result
    [0] is the Python integer. *)
Definition NoBounds_logpdf {P D M A : Type} (self : PriorBounds)
  (mpars : P) (data : D) (model : M) (current_lnpdf : option A) : result nat :=
  match param_name self with
  | None => Raise ValueError
  | Some _ => Ok 0
  end.

(** [NoBounds.__call__(nn, data, model)] *)
Definition NoBounds_call {A D M : Type} (self : PriorBounds)
  (nn : A) (data : D) (model : M) : A := nn.

(** The fields of [b] with [param_name] set to [pn]. *)
Definition stamp (b : PriorBounds) (pn : FlatParamName) : PriorBounds :=
  mkPriorBounds (prior_class b) (lower b) (upper b) (Some pn).

(** An instance that its class's constructor accepted. *)
Definition constructed (b : PriorBounds) : Prop :=
  match prior_class b with
  | NoBoundsClass => lower b = neg_infinity /\ upper b = infinity
  | SubClass _ => True
  end.

(** ** Facts about float comparison with the infinities *)

Lemma float_eqb_neg_inf (x : float) :
  PrimFloat.eqb x neg_infinity = true -> x = neg_infinity.
Proof.
  intro H. rewrite FloatAxioms.eqb_spec in H.
  apply FloatAxioms.Prim2SF_inj.
  change (Prim2SF neg_infinity) with (SpecFloat.S754_infinity true) in *.
  destruct (Prim2SF x) as [s | s | | s m e]; simpl in H; try discriminate.
  destruct s; simpl in H; [reflexivity | discriminate].
Qed.

Lemma float_eqb_inf (x : float) :
  PrimFloat.eqb x infinity = true -> x = infinity.
Proof.
  intro H. rewrite FloatAxioms.eqb_spec in H.
  apply FloatAxioms.Prim2SF_inj.
  change (Prim2SF infinity) with (SpecFloat.S754_infinity false) in *.
  destruct (Prim2SF x) as [s | s | | s m e]; simpl in H; try discriminate.
  destruct s; simpl in H; [discriminate | reflexivity].
Qed.

Lemma float_ne_neg_inf (x : float) :
  float_ne x neg_inf = false <-> x = neg_infinity.
Proof.
  unfold float_ne, neg_inf. split.
  - intro H. apply negb_false_iff in H. now apply float_eqb_neg_inf.
  - intros ->. reflexivity.
Qed.

Lemma float_ne_inf (x : float) :
  float_ne x inf = false <-> x = infinity.
Proof.
  unfold float_ne, inf. split.
  - intro H. apply negb_false_iff in H. now apply float_eqb_inf.
  - intros ->. reflexivity.
Qed.

(** C8. [NoBounds()] is constructible, and so is every construction with
    [lower = -inf] and [upper = inf]; with any other [lower] or [upper]
    (such as [NoBounds(1.0, 2.0)]) construction raises [ValueError]. *)
Theorem NoBounds_constructible_iff_infinite :
  NoBounds_default = Ok (mkPriorBounds NoBoundsClass neg_infinity infinity None)
  /\ NoBounds_init 1.0%float 2.0%float None = Raise ValueError
  /\ forall lo hi pn,
       (lo = neg_infinity /\ hi = infinity
        /\ NoBounds_init lo hi pn
           = Ok (mkPriorBounds NoBoundsClass neg_infinity infinity pn))
       \/ ((lo <> neg_infinity \/ hi <> infinity)
           /\ NoBounds_init lo hi pn = Raise ValueError).
Proof.
  split; [reflexivity |]. split; [reflexivity |].
  intros lo hi pn. unfold NoBounds_init, NoBounds_post_init. simpl.
  destruct (float_ne lo neg_inf) eqn:Hlo; simpl.
  - right. split; [| reflexivity]. left. intro E.
    apply float_ne_neg_inf in E. congruence.
  - apply float_ne_neg_inf in Hlo. subst lo.
    destruct (float_ne hi inf) eqn:Hhi; simpl.
    + right. split; [| reflexivity]. right. intro E.
      apply float_ne_inf in E. congruence.
    + apply float_ne_inf in Hhi. subst hi. left. auto.
Qed.

Lemma replace_constructed (b : PriorBounds) (pn : FlatParamName) :
  constructed b -> replace_param_name b pn = Ok (stamp b pn).
Proof.
  unfold constructed, replace_param_name, stamp.
  destruct b as [c lo hi n]; simpl. destruct c; [| reflexivity].
  intros [-> ->]. reflexivity.
Qed.

End Prior.

Import Prior.

(* ================================================================== *)
(** * Lists without repetition *)

Lemma NoDup_app_disjoint {X : Type} (l1 l2 : list X) (a : X) :
  NoDup (l1 ++ l2) -> In a l1 -> ~ In a l2.
Proof.
  induction l1 as [| x l1 IH]; simpl; intros N I.
  - contradiction.
  - inversion N as [| ? ? X0 N']; subst. destruct I as [-> | I].
    + intro J. apply X0. apply in_or_app. now right.
    + now apply IH.
Qed.

(* ================================================================== *)
(** * Python dictionaries: insertion-ordered, one entry per key *)

Class EqKey (K : Type) : Type := {
  keqb : K -> K -> bool;
  keqb_eq : forall a b, keqb a b = true <-> a = b
}.

#[export] Instance EqKey_string : EqKey string :=
  {| keqb := String.eqb; keqb_eq := String.eqb_eq |}.

Module Dict.

Section Ops.
Context {K V : Type} `{EqKey K}.

Definition t : Type := list (K * V).

(** [d[k]] as an option; [None] stands for the [KeyError]. *)
Fixpoint get (d : t) (k : K) : option V :=
  match d with
  | [] => None
  | (k', v) :: rest => if keqb k' k then Some v else get rest k
  end.

(** [k in d] *)
Definition contains (d : t) (k : K) : bool :=
  match get d k with Some _ => true | None => false end.

(** [d[k] = v]: an existing key keeps its position, a new key goes last. *)
Fixpoint set (d : t) (k : K) (v : V) : t :=
  match d with
  | [] => [(k, v)]
  | (k', v') :: rest =>
      if keqb k' k then (k', v) :: rest else (k', v') :: set rest k v
  end.

(** [dict(items)] and [{k: v for ...}]: later items overwrite earlier ones. *)
Definition of_items (items : list (K * V)) : t :=
  fold_left (fun d kv => set d (fst kv) (snd kv)) items [].

(** [d.update(items)] *)
Definition update (d : t) (items : list (K * V)) : t :=
  fold_left (fun d kv => set d (fst kv) (snd kv)) items d.

Definition keys (d : t) : list K := map fst d.

End Ops.

Arguments t : clear implicits.

Section Facts.
Context {K V : Type} `{EqKey K}.

Lemma keqb_refl (k : K) : keqb k k = true.
Proof. now apply keqb_eq. Qed.

Lemma keqb_neq (a b : K) : a <> b -> keqb a b = false.
Proof.
  intro N. destruct (keqb a b) eqn:E; [| reflexivity].
  apply keqb_eq in E. contradiction.
Qed.

Lemma set_fresh (d : t K V) (k : K) (v : V) :
  ~ In k (keys d) -> set d k v = d ++ [(k, v)].
Proof.
  induction d as [| [k' v'] d IH]; simpl; intro N.
  - reflexivity.
  - rewrite keqb_neq by tauto. rewrite IH by tauto. reflexivity.
Qed.

Lemma update_distinct (items d : t K V) :
  NoDup (keys (d ++ items)) -> update d items = d ++ items.
Proof.
  revert d. induction items as [| [k v] items IH]; intros d N.
  - simpl. now rewrite app_nil_r.
  - change (update d ((k, v) :: items)) with (update (set d k v) items).
    assert (F : ~ In k (keys d)).
    { unfold keys in *. rewrite map_app in N. simpl in N.
      apply NoDup_remove_2 in N. intro I. apply N. apply in_or_app. now left. }
    rewrite (@set_fresh d k v F).
    rewrite IH; rewrite <- app_assoc; [reflexivity | exact N].
Qed.

Lemma of_items_distinct (items : list (K * V)) :
  NoDup (map fst items) -> of_items items = items.
Proof.
  intro N. apply (update_distinct items []). exact N.
Qed.

Lemma get_set_same (d : t K V) (k : K) (v : V) :
  get (set d k v) k = Some v.
Proof.
  induction d as [| [k' v'] d IH]; simpl.
  - now rewrite keqb_refl.
  - destruct (keqb k' k) eqn:E; simpl; rewrite E; [reflexivity | exact IH].
Qed.

Lemma get_set_other (d : t K V) (k k' : K) (v : V) :
  k <> k' -> get (set d k v) k' = get d k'.
Proof.
  intro N. induction d as [| [k0 v0] d IH]; simpl.
  - now rewrite keqb_neq.
  - destruct (keqb k0 k) eqn:E; simpl.
    + apply keqb_eq in E. subst k0. now rewrite keqb_neq.
    + destruct (keqb k0 k'); [reflexivity | exact IH].
Qed.

End Facts.

End Dict.

(* ================================================================== *)
(** * Parameter names *)

Module Names.

(** Modelled from the spec: [stream_ml.core.params.names.ParamNames] is not
    among the sources.  A declared name is either a flat scalar name (a
    string) or a grouped name: a top-level string with its sub-names. *)
Inductive ParamName : Type :=
| Flat (name : string)
| Grouped (group : string) (subnames : list string).

Definition ParamNames : Type := list ParamName.

(** The top-level key of a declared name ([pn] itself, or [pn[0]]). *)
Definition top (pn : ParamName) : string :=
  match pn with
  | Flat s => s
  | Grouped g _ => g
  end.

(** Modelled from the spec: flattening a flat name [n] yields [(n,)] and
    flattening a grouped name [(g, (a, b))] yields [(g, a)] and [(g, b)]. *)
Definition flatten1 (pn : ParamName) : list FlatParamName :=
  match pn with
  | Flat s => [[s]]
  | Grouped g subs => map (fun k => [g; k]) subs
  end.

Definition flats (names : ParamNames) : list FlatParamName :=
  flat_map flatten1 names.

(** Declared names whose top-level keys are pairwise different and whose
    sub-names are pairwise different inside each group. *)
Definition subnames_distinct (pn : ParamName) : Prop :=
  match pn with
  | Flat _ => True
  | Grouped _ subs => NoDup subs
  end.

Definition distinct_names (names : ParamNames) : Prop :=
  NoDup (map top names) /\ Forall subnames_distinct names.

(** ** Facts about flattened names *)

Lemma flatten1_top (pn : ParamName) (k : FlatParamName) :
  In k (flatten1 pn) -> exists rest, k = top pn :: rest.
Proof.
  destruct pn as [s | g subs]; simpl.
  - intros [<- | []]. now exists [].
  - intro I. apply in_map_iff in I. destruct I as [x [<- _]]. now exists [x].
Qed.

Lemma flats_top (names : ParamNames) (k : FlatParamName) :
  In k (flats names) -> exists rest, k = hd EmptyString k :: rest
                                     /\ In (hd EmptyString k) (map top names).
Proof.
  unfold flats. intro I. apply in_flat_map in I. destruct I as [pn [I J]].
  destruct (flatten1_top pn k J) as [rest ->]. simpl.
  exists rest. split; [reflexivity |]. now apply in_map.
Qed.

Lemma flats_shape (names : ParamNames) (k : FlatParamName) :
  In k (flats names) -> List.length k = 1 \/ List.length k = 2.
Proof.
  unfold flats. intro I. apply in_flat_map in I. destruct I as [pn [_ J]].
  destruct pn as [s | g subs]; simpl in J.
  - destruct J as [<- | []]. now left.
  - apply in_map_iff in J. destruct J as [x [<- _]]. now right.
Qed.

Lemma flats_leaf (names : ParamNames) (s : string) :
  In [s] (flats names) -> In (Flat s) names.
Proof.
  unfold flats. intro I. apply in_flat_map in I. destruct I as [pn [I J]].
  destruct pn as [s' | g subs]; simpl in J.
  - destruct J as [E | []]. injection E as ->. exact I.
  - apply in_map_iff in J. destruct J as [x [E _]]. discriminate.
Qed.

Lemma flats_group (names : ParamNames) (g s : string) :
  In [g; s] (flats names) -> exists subs, In (Grouped g subs) names.
Proof.
  unfold flats. intro I. apply in_flat_map in I. destruct I as [pn [I J]].
  destruct pn as [s' | g' subs]; simpl in J.
  - destruct J as [E | []]. discriminate.
  - apply in_map_iff in J. destruct J as [x [E _]]. injection E as -> _.
    now exists subs.
Qed.

Lemma top_determines (names : ParamNames) (a b : ParamName) :
  NoDup (map top names) -> In a names -> In b names -> top a = top b -> a = b.
Proof.
  induction names as [| pn names IH]; simpl; intros N Ia Ib E; [contradiction |].
  inversion N as [| ? ? X N']; subst.
  destruct Ia as [-> | Ia], Ib as [-> | Ib]; trivial.
  - exfalso. apply X. rewrite E. now apply in_map.
  - exfalso. apply X. rewrite <- E. now apply in_map.
  - now apply IH.
Qed.

Lemma flats_distinct (names : ParamNames) :
  distinct_names names -> NoDup (flats names).
Proof.
  intros [N S]. unfold flats.
  induction names as [| pn names IH]; simpl; [constructor |].
  inversion N as [| ? ? X N']; inversion S as [| ? ? S1 S2]; subst.
  apply NoDup_app.
  - destruct pn as [s | g subs]; simpl.
    + repeat constructor. tauto.
    + simpl in S1. clear - S1.
      induction S1 as [| x subs Y S1 IH]; simpl; constructor; trivial.
      intro I. apply in_map_iff in I. destruct I as [y [E I]].
      injection E as ->. contradiction.
  - now apply IH.
  - intros k I J. destruct (flatten1_top pn k I) as [rest ->].
    destruct (flats_top names _ J) as [rest' [_ T]]. simpl in T. contradiction.
Qed.

End Names.

Import Names.

(* ================================================================== *)
(** * [stream_ml/core/params/bounds.py] *)

Module Bounds.

(** Keys of a construction literal: strings, or any other hashable object
    (identified here by a number). *)
Inductive PyKey : Type :=
| KStr (s : string)
| KObj (id : nat).

Definition PyKey_eqb (a b : PyKey) : bool :=
  match a, b with
  | KStr s, KStr s' => String.eqb s s'
  | KObj n, KObj n' => Nat.eqb n n'
  | _, _ => false
  end.

Lemma PyKey_eqb_eq (a b : PyKey) : PyKey_eqb a b = true <-> a = b.
Proof.
  destruct a as [s | n], b as [s' | n']; simpl; split; intro E;
    try discriminate; try congruence.
  - apply String.eqb_eq in E. now subst.
  - injection E as ->. apply String.eqb_refl.
  - apply Nat.eqb_eq in E. now subst.
  - injection E as ->. apply Nat.eqb_refl.
Qed.

#[export] Instance EqKey_PyKey : EqKey PyKey :=
  {| keqb := PyKey_eqb; keqb_eq := PyKey_eqb_eq |}.

(** Values of a construction literal: a [PriorBounds] instance, [None], a
    mapping (whose own keys are strings), or any other object. *)
#[warnings="-register-all"]
Inductive PyVal : Type :=
| VPrior (b : PriorBounds)
| VNone
| VMapping (items : list (string * PyVal))
| VOther (repr : string).

(** What a [ParamBounds] stores under a top-level key. *)
Inductive Entry : Type :=
| Leaf (b : PriorBounds)
| Nested (d : Dict.t string PriorBounds).

Definition ParamBounds : Type := Dict.t string Entry.

(** [NoBounds()] evaluated inside [__init__]. *)
Definition no_bounds : PriorBounds :=
  mkPriorBounds NoBoundsClass neg_inf inf None.

(** [vv if isinstance(vv, PriorBounds) else NoBounds()] *)
Definition nested_value (vv : PyVal) : PriorBounds :=
  match vv with
  | VPrior b => b
  | _ => no_bounds
  end.

(** The body of the loop of [ParamBounds.__init__]. *)
Definition init_step (pb : ParamBounds) (kv : PyKey * PyVal) : result ParamBounds :=
  match fst kv with
  | KObj _ => Raise TypeError
  | KStr k =>
      match snd kv with
      | VPrior b => Ok (Dict.set pb k (Leaf b))
      | VNone => Ok (Dict.set pb k (Leaf no_bounds))
      | VMapping items =>
          Ok (Dict.set pb k
                (Nested (Dict.of_items
                           (map (fun kkvv => (fst kkvv, nested_value (snd kkvv)))
                                items))))
      | VOther _ => Raise TypeError
      end
  end.

(** The items [__init__] iterates over, [dict(m, **kwargs).items()]; [m] is
    given by its items. *)
Definition literal_items (m : list (PyKey * PyVal)) (kwargs : list (string * PyVal))
  : list (PyKey * PyVal) :=
  Dict.update (Dict.of_items m) (map (fun kv => (KStr (fst kv), snd kv)) kwargs).

(** [ParamBounds.__init__(m, **kwargs)] *)
Definition init (m : list (PyKey * PyVal)) (kwargs : list (string * PyVal))
  : result ParamBounds :=
  for_each init_step (literal_items m kwargs) [].

(** The body of the loop of [ParamBounds.from_names]. *)
Definition from_names_step (default : PriorBounds)
  (m : Dict.t PyKey PyVal) (pn : ParamName) : result (Dict.t PyKey PyVal) :=
  match pn with
  | Flat s =>
      b <- replace_param_name default [s] ;;
      Ok (Dict.set m (KStr s) (VPrior b))
  | Grouped g subs =>
      items <- traverse
                 (fun k => b <- replace_param_name default [g; k] ;;
                           Ok (k, VPrior b))
                 subs ;;
      Ok (Dict.set m (KStr g) (VMapping (Dict.of_items items)))
  end.

(** [ParamBounds.from_names(names, default)] *)
Definition from_names (names : ParamNames) (default : PriorBounds)
  : result ParamBounds :=
  m <- for_each (from_names_step default) names [] ;;
  init m [].

(** A key handed to [__getitem__] / [__contains__]: a string or a tuple of
    strings. *)
Inductive Key : Type :=
| KeyStr (s : string)
| KeyTuple (t : list string).

(** [t[i]] on a tuple *)
Definition tuple_index (t : list string) (i : nat) : result string :=
  match nth_error t i with
  | Some s => Ok s
  | None => Raise IndexError
  end.

(** [super().__getitem__(key)] / [FrozenDict.__getitem__] *)
Definition dict_getitem {V : Type} (d : Dict.t string V) (k : string) : result V :=
  match Dict.get d k with
  | Some v => Ok v
  | None => Raise KeyError
  end.

(** [ParamBounds.__getitem__] *)
Definition getitem (self : ParamBounds) (key : Key) : result Entry :=
  match key with
  | KeyStr s => dict_getitem self s
  | KeyTuple t =>
      if Nat.eqb (List.length t) 1 then
        k0 <- tuple_index t 0 ;;
        value <- dict_getitem self k0 ;;
        match value with
        | Leaf _ => Ok value
        | Nested _ => Raise KeyError
        end
      else
        k0 <- tuple_index t 0 ;;
        v <- dict_getitem self k0 ;;
        match v with
        | Leaf _ => Raise KeyError
        | Nested d =>
            k1 <- tuple_index t 1 ;;
            b <- dict_getitem d k1 ;;
            Ok (Leaf b)
        end
  end.

(** [ParamBounds.__contains__]: only [KeyError] is caught. *)
Definition contains (self : ParamBounds) (o : Key) : result bool :=
  match o with
  | KeyStr s => Ok (Dict.contains self s)
  | KeyTuple _ =>
      match getitem self o with
      | Ok _ => Ok true
      | Raise KeyError => Ok false
      | Raise e => Raise e
      end
  end.

(** [ParamBounds.flatitems] *)
Definition flatitems (self : ParamBounds) : list (FlatParamName * PriorBounds) :=
  flat_map
    (fun nb =>
       match snd nb with
       | Leaf b => [([fst nb], b)]
       | Nested d => map (fun sb => ([fst nb; fst sb], snd sb)) d
       end)
    self.

(** [ParamBounds.flatkeys] *)
Definition flatkeys (self : ParamBounds) : list FlatParamName :=
  map fst (flatitems self).

(** [ParamBounds.flatvalues] *)
Definition flatvalues (self : ParamBounds) : list PriorBounds :=
  map snd (flatitems self).

(** [ParamBounds.validate(names, error=...)] *)
Definition validate (self : ParamBounds) (names : ParamNames) (error : bool)
  : result bool :=
  if list_eq_dec (list_eq_dec string_dec) (flatkeys self) (flats names)
  then Ok true
  else if error then Raise ValueError else Ok false.

(** ** Membership and lookup *)

(** The key forms the mapping supports: a string, a 1-tuple, a 2-tuple. *)
Definition supported (k : Key) : Prop :=
  match k with
  | KeyStr _ => True
  | KeyTuple t => List.length t = 1 \/ List.length t = 2
  end.

Ltac settle_lookup :=
  repeat split; intros;
  repeat match goal with
         | H : exists _, _ |- _ => destruct H
         end;
  eauto; try discriminate.

(** C5. For every key of a supported form, [k in P] is [True] exactly when
    [P[k]] succeeds and [False] exactly when [P[k]] raises [KeyError]; the
    membership test itself never raises. *)
Theorem contains_agrees_with_getitem (P : ParamBounds) (k : Key) :
  supported k ->
  (contains P k = Ok true <-> succeeds (getitem P k))
  /\ (contains P k = Ok false <-> getitem P k = Raise KeyError)
  /\ (contains P k = Ok true \/ contains P k = Ok false).
Proof.
  unfold succeeds. destruct k as [s | t]; simpl.
  - intros _. unfold Dict.contains, dict_getitem.
    destruct (Dict.get P s) as [e |]; settle_lookup.
  - destruct t as [| a [| b [| c r]]]; simpl;
      intros [L | L]; try discriminate; unfold dict_getitem.
    + destruct (Dict.get P a) as [[pb | d] |]; simpl; settle_lookup.
    + destruct (Dict.get P a) as [[pb | d] |]; simpl;
        [settle_lookup | | settle_lookup].
      destruct (Dict.get d b) as [pb |]; simpl; settle_lookup.
Qed.

Section MembershipExample.
Local Open Scope string_scope.

(** C5 at the nested key [("phi2", "mu")] of a one-group mapping. *)
Lemma contains_agrees_with_getitem_witness :
  let P := [("phi2", Nested [("mu", no_bounds)])] in
  let k := KeyTuple ["phi2"; "mu"] in
  (contains P k = Ok true <-> succeeds (getitem P k))
  /\ (contains P k = Ok false <-> getitem P k = Raise KeyError)
  /\ (contains P k = Ok true \/ contains P k = Ok false).
Proof.
  intros P k. apply (contains_agrees_with_getitem P k).
  right. reflexivity.
Defined.

End MembershipExample.

(** ** Construction *)

(** What [__init__] checks of one item: the key is a string and the value is
    a [PriorBounds], [None] or a mapping.  The values inside a mapping are
    not looked at. *)
Definition top_level_ok (kv : PyKey * PyVal) : bool :=
  match fst kv, snd kv with
  | KObj _, _ => false
  | KStr _, VOther _ => false
  | KStr _, _ => true
  end.

Lemma init_step_ok (pb : ParamBounds) (kv : PyKey * PyVal) :
  top_level_ok kv = true -> succeeds (init_step pb kv).
Proof.
  unfold succeeds, init_step, top_level_ok.
  destruct kv as [[k | n] [b | | items | r]]; simpl; intro E;
    try discriminate; eauto.
Qed.

Lemma init_step_bad (pb : ParamBounds) (kv : PyKey * PyVal) :
  top_level_ok kv = false -> init_step pb kv = Raise TypeError.
Proof.
  unfold init_step, top_level_ok.
  destruct kv as [[k | n] [b | | items | r]]; simpl; intro E;
    try discriminate; reflexivity.
Qed.

Lemma init_loop_ok (items : list (PyKey * PyVal)) :
  forall pb, forallb top_level_ok items = true ->
             succeeds (for_each init_step items pb).
Proof.
  induction items as [| kv items IH]; simpl; intros pb A.
  - now exists pb.
  - apply andb_true_iff in A. destruct A as [A1 A2].
    destruct (init_step_ok pb kv A1) as [pb' E]. rewrite E. simpl.
    now apply IH.
Qed.

Lemma init_loop_bad (items : list (PyKey * PyVal)) :
  forall pb, forallb top_level_ok items = false ->
             for_each init_step items pb = Raise TypeError.
Proof.
  induction items as [| kv items IH]; simpl; intros pb A.
  - discriminate.
  - destruct (top_level_ok kv) eqn:T; simpl in A.
    + destruct (init_step_ok pb kv T) as [pb' E]. rewrite E. simpl.
      now apply IH.
    + now rewrite (init_step_bad pb kv T).
Qed.

Lemma forallb_false_witness (items : list (PyKey * PyVal)) :
  forallb top_level_ok items = false ->
  exists kv, In kv items /\ top_level_ok kv = false.
Proof.
  induction items as [| kv items IH]; simpl; intro A.
  - discriminate.
  - destruct (top_level_ok kv) eqn:T; simpl in A.
    + destruct (IH A) as [kv' [I T']]. exists kv'. auto.
    + exists kv. auto.
Qed.

(** C6, as the code has it.  Construction raises [TypeError] exactly when
    some top-level item has a non-string key or a value that is neither a
    [PriorBounds], [None] nor a mapping, and succeeds otherwise; a value
    inside a sub-mapping is never a reason to fail: one that is not a
    [PriorBounds] is stored as [NoBounds()]. *)
Theorem init_fails_iff_bad_top_level
  (m : list (PyKey * PyVal)) (kwargs : list (string * PyVal)) :
  (init m kwargs = Raise TypeError
   <-> exists kv, In kv (literal_items m kwargs) /\ top_level_ok kv = false)
  /\ (succeeds (init m kwargs)
      <-> forall kv, In kv (literal_items m kwargs) -> top_level_ok kv = true)
  /\ (forall k nested,
        init [(KStr k, VMapping nested)] []
        = Ok [(k, Nested (Dict.of_items
                            (map (fun kkvv => (fst kkvv, nested_value (snd kkvv)))
                                 nested)))]).
Proof.
  split; [| split].
  3: reflexivity.
  all: unfold init;
    set (items := literal_items m kwargs);
    destruct (forallb top_level_ok items) eqn:A.
  - pose proof (init_loop_ok items [] A) as [pb E].
    rewrite forallb_forall in A. split.
    + intro H. rewrite E in H. discriminate.
    + intros [kv [I T]]. rewrite (A kv I) in T. discriminate.
  - split; [intros _ | intros _; now apply init_loop_bad].
    now apply forallb_false_witness.
  - split; [intros _ | intros _; now apply init_loop_ok].
    now apply forallb_forall.
  - rewrite (init_loop_bad items [] A). split.
    + intros [pb E]. discriminate.
    + intro H. apply forallb_false_witness in A.
      destruct A as [kv [I T]]. rewrite (H kv I) in T. discriminate.
Qed.

Section ConstructionExample.
Local Open Scope string_scope.

(** C6 as stated fails for nested values: [ParamBounds({"phi2": {"mu": 3}})]
    is constructed, with [NoBounds()] stored for ["mu"]. *)
Lemma init_accepts_bad_nested_value :
  init [(KStr "phi2", VMapping [("mu", VOther "3")])] []
  = Ok [("phi2", Nested [("mu", no_bounds)])]
  /\ ~ (exists e, init [(KStr "phi2", VMapping [("mu", VOther "3")])] []
                  = Raise e).
Proof.
  split; [reflexivity |]. intros [e E]. discriminate.
Qed.

End ConstructionExample.

(** ** [from_names] *)

(** The literal [from_names] hands to the constructor for one declared name,
    when every [replace] succeeds. *)
Definition literal_of (default : PriorBounds) (pn : ParamName) : PyKey * PyVal :=
  match pn with
  | Flat s => (KStr s, VPrior (stamp default [s]))
  | Grouped g subs =>
      (KStr g, VMapping (map (fun k => (k, VPrior (stamp default [g; k]))) subs))
  end.

(** The entry stored for one declared name. *)
Definition entry_of (default : PriorBounds) (pn : ParamName) : string * Entry :=
  match pn with
  | Flat s => (s, Leaf (stamp default [s]))
  | Grouped g subs =>
      (g, Nested (map (fun k => (k, stamp default [g; k])) subs))
  end.

Lemma literal_of_key (default : PriorBounds) (pn : ParamName) :
  fst (literal_of default pn) = KStr (top pn).
Proof. now destruct pn. Qed.

Lemma entry_of_key (default : PriorBounds) (pn : ParamName) :
  fst (entry_of default pn) = top pn.
Proof. now destruct pn. Qed.

Lemma traverse_replace (default : PriorBounds) (g : string) (subs : list string) :
  constructed default ->
  traverse (fun k => b <- replace_param_name default [g; k] ;; Ok (k, VPrior b)) subs
  = Ok (map (fun k => (k, VPrior (stamp default [g; k]))) subs).
Proof.
  intro C. induction subs as [| k subs IH]; simpl.
  - reflexivity.
  - rewrite replace_constructed by exact C. simpl. rewrite IH. reflexivity.
Qed.

Lemma from_names_step_fresh (default : PriorBounds) (m : Dict.t PyKey PyVal)
  (pn : ParamName) :
  constructed default ->
  subnames_distinct pn ->
  ~ In (KStr (top pn)) (Dict.keys m) ->
  from_names_step default m pn = Ok (m ++ [literal_of default pn]).
Proof.
  intros C S F. destruct pn as [s | g subs]; simpl in *.
  - rewrite replace_constructed by exact C. simpl. now rewrite Dict.set_fresh.
  - rewrite traverse_replace by exact C. simpl.
    rewrite Dict.of_items_distinct.
    + now rewrite Dict.set_fresh.
    + rewrite map_map. simpl. now rewrite map_id.
Qed.

Lemma KStr_in_map (s : string) (l : list string) :
  In (KStr s) (map KStr l) -> In s l.
Proof.
  intro I. apply in_map_iff in I. destruct I as [x [E I]]. now injection E as ->.
Qed.

Lemma from_names_loop (default : PriorBounds) (names : ParamNames) :
  constructed default ->
  Forall subnames_distinct names ->
  forall m,
    NoDup (Dict.keys m ++ map KStr (map top names)) ->
    for_each (from_names_step default) names m
    = Ok (m ++ map (literal_of default) names).
Proof.
  intros C. induction names as [| pn names IH]; intros S m N; simpl.
  - now rewrite app_nil_r.
  - inversion S as [| ? ? S1 S2]; subst.
    simpl in N. rewrite from_names_step_fresh; trivial.
    + simpl. rewrite IH; trivial.
      * now rewrite <- app_assoc.
      * unfold Dict.keys in *. rewrite map_app. simpl.
        rewrite literal_of_key. now rewrite <- app_assoc.
    + apply NoDup_remove_2 in N. intro I. apply N. apply in_or_app. now left.
Qed.

Lemma init_step_literal (default : PriorBounds) (pb : ParamBounds) (pn : ParamName) :
  subnames_distinct pn ->
  ~ In (top pn) (Dict.keys pb) ->
  init_step pb (literal_of default pn) = Ok (pb ++ [entry_of default pn]).
Proof.
  intros S F. destruct pn as [s | g subs]; simpl in *; unfold init_step; simpl.
  - now rewrite Dict.set_fresh.
  - rewrite map_map. simpl. rewrite Dict.of_items_distinct.
    + now rewrite Dict.set_fresh.
    + rewrite map_map. simpl. now rewrite map_id.
Qed.

Lemma init_loop_literals (default : PriorBounds) (names : ParamNames) :
  Forall subnames_distinct names ->
  forall pb,
    NoDup (Dict.keys pb ++ map top names) ->
    for_each init_step (map (literal_of default) names) pb
    = Ok (pb ++ map (entry_of default) names).
Proof.
  induction names as [| pn names IH]; intros S pb N; simpl.
  - now rewrite app_nil_r.
  - inversion S as [| ? ? S1 S2]; subst.
    simpl in N. rewrite init_step_literal; trivial.
    + simpl. rewrite IH; trivial.
      * now rewrite <- app_assoc.
      * unfold Dict.keys in *. rewrite map_app. simpl.
        rewrite entry_of_key. now rewrite <- app_assoc.
    + apply NoDup_remove_2 in N. intro I. apply N. apply in_or_app. now left.
Qed.

Lemma flatitems_entries (default : PriorBounds) (names : ParamNames) :
  flatitems (map (entry_of default) names)
  = map (fun k => (k, stamp default k)) (flats names).
Proof.
  unfold flatitems, flats. induction names as [| pn names IH]; simpl.
  - reflexivity.
  - rewrite map_app. rewrite <- IH. f_equal.
    destruct pn as [s | g subs]; simpl; [reflexivity |].
    now rewrite !map_map.
Qed.

Lemma NoDup_map_KStr (l : list string) : NoDup l -> NoDup (map KStr l).
Proof.
  induction 1 as [| x l X N IH]; simpl; constructor; trivial.
  intro I. apply X. now apply KStr_in_map.
Qed.

(** The mapping [from_names] returns on declared names without repeated
    keys. *)
Lemma from_names_distinct (names : ParamNames) (default : PriorBounds) :
  distinct_names names ->
  constructed default ->
  from_names names default = Ok (map (entry_of default) names).
Proof.
  intros [N S] C. unfold from_names.
  rewrite (@from_names_loop default names C S []); [| now apply NoDup_map_KStr].
  simpl. unfold init, literal_items.
  assert (K : map fst (map (literal_of default) names) = map KStr (map top names)).
  { rewrite !map_map. apply map_ext. intro pn. apply literal_of_key. }
  simpl. rewrite Dict.of_items_distinct; [| rewrite K; now apply NoDup_map_KStr].
  now rewrite (@init_loop_literals default names S []).
Qed.

(** C4, for declared names without repeated keys.  When the top-level keys of
    [N] are pairwise different and the sub-names of each group are pairwise
    different, [from_names(N, B)] returns a [ParamBounds] whose [flatkeys()]
    is the flattened form of [N], and whose flattened items pair every
    flattened key with [B] carrying that key as its [param_name]. *)
Theorem from_names_flatkeys (names : ParamNames) (default : PriorBounds) :
  distinct_names names ->
  constructed default ->
  exists P,
    from_names names default = Ok P
    /\ flatkeys P = flats names
    /\ flatitems P = map (fun k => (k, stamp default k)) (flats names)
    /\ validate P names true = Ok true.
Proof.
  intros D C. exists (map (entry_of default) names).
  assert (I : flatitems (map (entry_of default) names)
              = map (fun k => (k, stamp default k)) (flats names))
    by apply flatitems_entries.
  assert (K : flatkeys (map (entry_of default) names) = flats names).
  { unfold flatkeys. rewrite I, map_map. simpl. apply map_id. }
  repeat split; trivial.
  - now apply from_names_distinct.
  - unfold validate. rewrite K.
    destruct (list_eq_dec (list_eq_dec string_dec) (flats names) (flats names));
      [reflexivity | contradiction].
Qed.

Section FromNamesExamples.
Local Open Scope string_scope.

(** C4 at [("weight", ("phi2", ("mu", "sigma")))] with [NoBounds()]. *)
Lemma from_names_flatkeys_witness :
  exists P,
    from_names [Flat "weight"; Grouped "phi2" ["mu"; "sigma"]] no_bounds = Ok P
    /\ flatkeys P = flats [Flat "weight"; Grouped "phi2" ["mu"; "sigma"]]
    /\ flatitems P
       = map (fun k => (k, stamp no_bounds k))
             (flats [Flat "weight"; Grouped "phi2" ["mu"; "sigma"]])
    /\ validate P [Flat "weight"; Grouped "phi2" ["mu"; "sigma"]] true = Ok true.
Proof.
  apply (@from_names_flatkeys
           [Flat "weight"; Grouped "phi2" ["mu"; "sigma"]] no_bounds).
  - split.
    + simpl. repeat constructor; simpl; intuition discriminate.
    + repeat constructor; simpl; intuition discriminate.
  - simpl. split; reflexivity.
Defined.

(** C4 as stated fails when a flat name and a group share their top-level
    key: for [N = ("a", ("a", ("x",)))], whose flattened names [("a",)] and
    [("a", "x")] are different, the group overwrites the flat entry and
    [flatkeys()] is [(("a", "x"),)]. *)
Lemma from_names_shared_key_counterexample :
  NoDup (flats [Flat "a"; Grouped "a" ["x"]])
  /\ exists P,
       from_names [Flat "a"; Grouped "a" ["x"]] no_bounds = Ok P
       /\ flatkeys P = [["a"; "x"]]
       /\ flatkeys P <> flats [Flat "a"; Grouped "a" ["x"]].
Proof.
  split.
  - simpl. repeat constructor; simpl; intuition discriminate.
  - eexists. split; [reflexivity |]. split; [reflexivity |]. discriminate.
Qed.

End FromNamesExamples.

End Bounds.

(* ================================================================== *)
(** * Two-dimensional arrays and named-column data *)

Module Arr.

Section Ops.
Variable A : Type.

(** A two-dimensional array, as the list of its rows. *)
Definition Array : Type := list (list A).

(** [n] rows of [k] entries each. *)
Definition shaped (n k : nat) (a : Array) : Prop :=
  List.length a = n /\ Forall (fun r => List.length r = k) a.

(** Joining two arrays row by row; the row counts must agree. *)
Fixpoint join_rows (a b : Array) : result Array :=
  match a, b with
  | [], [] => Ok []
  | r :: a', s :: b' => rest <- join_rows a' b' ;; Ok ((r ++ s) :: rest)
  | _, _ => Raise ValueError
  end.

(** [xp.hstack(arrays)] on two-dimensional arrays: concatenation along the
    column axis.  An empty sequence and unequal row counts are errors. *)
Fixpoint hstack (arrays : list Array) : result Array :=
  match arrays with
  | [] => Raise ValueError
  | [a] => Ok a
  | a :: rest => r <- hstack rest ;; join_rows a r
  end.

(** [v[:, None]] on a one-dimensional array: one column, one row per entry. *)
Definition add_axis (v : list A) : Array := map (fun x => [x]) v.

(** [a[:, i : i + 1]]: the slice is empty when [i] is past the last column. *)
Definition column_slice (a : Array) (i : nat) : Array :=
  map (fun row => firstn 1 (skipn i row)) a.

End Ops.

Section DataOps.
Variable A : Type.

(** Modelled from the spec: [stream_ml.core._data.Data] is not among the
    sources.  A named-column container: an array together with the names of
    its columns.  The spec states no check at construction. *)
Record Data : Type := mkData {
  array : Array A;
  names : list string
}.

(** What a scaler is given or returns: a named container or a raw array. *)
Inductive DataOrArray : Type :=
| IsData (d : Data)
| IsArray (a : Array A).

(** [v.array if isinstance(v, Data) else v] *)
Definition array_of (v : DataOrArray) : Array A :=
  match v with
  | IsData d => array d
  | IsArray a => a
  end.

(** The position of the column called [n]. *)
Fixpoint index_of (ns : list string) (n : string) : option nat :=
  match ns with
  | [] => None
  | m :: rest =>
      if String.eqb m n then Some 0
      else match index_of rest n with
           | Some i => Some (S i)
           | None => None
           end
  end.

(** The entries of one row under the columns called [ns]. *)
Definition select (all : list string) (row : list A) (ns : list string)
  : result (list A) :=
  traverse
    (fun n =>
       match index_of all n with
       | None => Raise KeyError
       | Some i =>
           match nth_error row i with
           | Some x => Ok x
           | None => Raise IndexError
           end
       end)
    ns.

(** Modelled from the spec: [data[ns]] for a tuple of names is the named
    container of those columns, in the order of [ns]. *)
Definition Data_getitem (d : Data) (ns : list string) : result Data :=
  rows <- traverse (fun row => select (names d) row ns) (array d) ;;
  Ok (mkData rows ns).

End DataOps.

Arguments IsData {A} d.
Arguments IsArray {A} a.

Section Facts.
Variable A : Type.

Lemma traverse_length {X Y : Type} (f : X -> result Y) (xs : list X) (ys : list Y) :
  traverse f xs = Ok ys -> List.length ys = List.length xs.
Proof.
  revert ys. induction xs as [| x xs IH]; simpl; intros ys E.
  - injection E as <-. reflexivity.
  - destruct (f x) as [y | e]; simpl in E; [| discriminate].
    destruct (traverse f xs) as [ys' | e]; simpl in E; [| discriminate].
    injection E as <-. simpl. f_equal. now apply IH.
Qed.

Lemma traverse_app_eq {X Y : Type} (f : X -> result Y) (xs1 xs2 : list X) :
  traverse f (xs1 ++ xs2)
  = (ys1 <- traverse f xs1 ;; ys2 <- traverse f xs2 ;; Ok (ys1 ++ ys2)).
Proof.
  induction xs1 as [| x xs1 IH]; simpl.
  - destruct (traverse f xs2); reflexivity.
  - destruct (f x) as [y | e]; simpl; [| reflexivity].
    rewrite IH. destruct (traverse f xs1) as [r1 | e]; simpl; [| reflexivity].
    destruct (traverse f xs2); reflexivity.
Qed.

Lemma traverse_app {X Y : Type} (f : X -> result Y) (xs1 xs2 : list X) (ys : list Y) :
  traverse f (xs1 ++ xs2) = Ok ys ->
  exists ys1 ys2,
    traverse f xs1 = Ok ys1 /\ traverse f xs2 = Ok ys2 /\ ys = ys1 ++ ys2.
Proof.
  rewrite traverse_app_eq.
  destruct (traverse f xs1) as [r1 | e]; simpl; [| discriminate].
  destruct (traverse f xs2) as [r2 | e]; simpl; [| discriminate].
  intro E. injection E as <-. exists r1, r2. auto.
Qed.

Lemma index_of_skip (P Q : list string) (n : string) :
  ~ In n P -> index_of (P ++ n :: Q) n = Some (List.length P).
Proof.
  induction P as [| m P IH]; simpl; intro N.
  - now rewrite String.eqb_refl.
  - destruct (String.eqb m n) eqn:E.
    + apply String.eqb_eq in E. tauto.
    + rewrite IH by tauto. reflexivity.
Qed.

Lemma nth_error_skip (p q : list A) (y : A) :
  nth_error (p ++ y :: q) (List.length p) = Some y.
Proof.
  rewrite nth_error_app2 by lia. now rewrite Nat.sub_diag.
Qed.

(** Selecting a block of adjacent, uniquely named columns returns the block
    of each row. *)
Lemma select_block (M : list string) :
  forall (P Q : list string) (p m q : list A),
    NoDup (P ++ M) ->
    List.length p = List.length P ->
    List.length m = List.length M ->
    select (P ++ M ++ Q) (p ++ m ++ q) M = Ok m.
Proof.
  unfold select.
  induction M as [| x M IH]; intros P Q p m q N Lp Lm.
  - destruct m; [reflexivity | discriminate].
  - destruct m as [| y m]; [discriminate |]. simpl in Lm.
    assert (NP : ~ In x P).
    { apply NoDup_remove_2 in N. intro I. apply N. apply in_or_app. now left. }
    cbn [traverse app].
    rewrite index_of_skip by exact NP. rewrite <- Lp, nth_error_skip. simpl.
    assert (R : traverse
                  (fun n =>
                     match index_of ((P ++ [x]) ++ M ++ Q) n with
                     | Some i =>
                         match nth_error ((p ++ [y]) ++ m ++ q) i with
                         | Some z => Ok z
                         | None => Raise IndexError
                         end
                     | None => Raise KeyError
                     end) M = Ok m).
    { apply IH.
      - rewrite <- app_assoc. exact N.
      - rewrite !length_app. simpl. lia.
      - lia. }
    rewrite <- !app_assoc in R. simpl in R. rewrite R. reflexivity.
Qed.

Lemma join_rows_select (all1 all2 : list string) :
  NoDup (all1 ++ all2) ->
  forall t1 t2 : Array A,
    List.length t1 = List.length t2 ->
    Forall (fun r => List.length r = List.length all1) t1 ->
    Forall (fun r => List.length r = List.length all2) t2 ->
    exists xd,
      join_rows t1 t2 = Ok xd
      /\ traverse (fun row => select (all1 ++ all2) row all1) xd = Ok t1
      /\ traverse (fun row => select (all1 ++ all2) row all2) xd = Ok t2.
Proof.
  intros N. induction t1 as [| r1 t1 IH]; intros [| r2 t2] L F1 F2;
    try discriminate.
  - exists []. auto.
  - inversion F1 as [| ? ? L1 F1']; inversion F2 as [| ? ? L2 F2']; subst.
    destruct (IH t2) as [xd [J [S1 S2]]]; trivial.
    { simpl in L. lia. }
    exists ((r1 ++ r2) :: xd). simpl. rewrite J. simpl.
    split; [reflexivity |]. split.
    + pose proof (@select_block all1 [] all2 [] r1 r2 (NoDup_app_remove_r _ _ N)
                                eq_refl L1) as B.
      simpl in B. rewrite B, S1. reflexivity.
    + pose proof (@select_block all2 all1 [] r1 r2 [] N (eq_sym (eq_sym L1)) L2) as B.
      rewrite !app_nil_r in B. rewrite B, S2. reflexivity.
Qed.

Lemma select_self (ns : list string) (row : list A) :
  NoDup ns -> List.length row = List.length ns -> select ns row ns = Ok row.
Proof.
  intros N L.
  pose proof (@select_block ns [] [] [] row [] N eq_refl L) as B.
  simpl in B. now rewrite !app_nil_r in B.
Qed.

Lemma Data_getitem_self (d : Data A) (n : nat) :
  NoDup (names d) ->
  shaped n (List.length (names d)) (array d) ->
  Data_getitem d (names d) = Ok d.
Proof.
  intros N [_ F]. unfold Data_getitem. destruct d as [a ns]. simpl in *.
  assert (T : traverse (fun row => select ns row ns) a = Ok a).
  { induction F as [| r a L F IH]; simpl; [reflexivity |].
    rewrite select_self by assumption. simpl. rewrite IH. reflexivity. }
  rewrite T. reflexivity.
Qed.

(** Selecting the columns [ns1 ++ ns2] of every row is selecting [ns1] and
    [ns2] and joining the two results. *)
Lemma traverse_select_app (all ns1 ns2 : list string) (a rows : Array A) :
  traverse (fun row => select all row (ns1 ++ ns2)) a = Ok rows ->
  exists c1 c2,
    traverse (fun row => select all row ns1) a = Ok c1
    /\ traverse (fun row => select all row ns2) a = Ok c2
    /\ join_rows c1 c2 = Ok rows
    /\ shaped (List.length a) (List.length ns1) c1
    /\ shaped (List.length a) (List.length ns2) c2.
Proof.
  revert rows. induction a as [| row a IH]; simpl; intros rows E.
  - injection E as <-. exists [], []. repeat split; auto; constructor.
  - destruct (select all row (ns1 ++ ns2)) as [r |] eqn:Sel; simpl in E;
      [| discriminate].
    destruct (traverse (fun row0 => select all row0 (ns1 ++ ns2)) a) as [rs |] eqn:T;
      simpl in E; [| discriminate].
    injection E as <-.
    destruct (IH rs eq_refl) as [c1 [c2 [T1 [T2 [J [[L1 F1] [L2 F2]]]]]]].
    unfold select in Sel. apply traverse_app in Sel.
    destruct Sel as [r1 [r2 [E1 [E2 ->]]]].
    fold (select all row ns1) in E1. fold (select all row ns2) in E2.
    exists (r1 :: c1), (r2 :: c2). rewrite E1, E2, T1, T2. simpl. rewrite J. simpl.
    repeat split; auto; simpl; try lia; constructor; trivial.
    + unfold select in E1. now apply traverse_length in E1.
    + unfold select in E2. now apply traverse_length in E2.
Qed.

End Facts.

End Arr.

Import Arr.

(* ================================================================== *)
(** * [stream_ml/core/utils/scale/_multi.py] *)

Module Scale.

(** The array namespace [xp]; only its presence matters here. *)
Inductive ArrayNamespace : Type := Namespace.

(** The [DataScaler] interface a compound scaler consumes from its members
    ([stream_ml.core.utils.scale._api], not among the sources): the column
    names, the two transforms and the reduction to a subset of names. *)
Class DataScaler (A S : Type) : Type := {
  scaler_names : S -> list string;
  scaler_transform :
    S -> DataOrArray A -> list string -> option ArrayNamespace
    -> result (DataOrArray A);
  scaler_inverse_transform :
    S -> DataOrArray A -> list string -> option ArrayNamespace
    -> result (DataOrArray A);
  scaler_getitem : S -> list string -> result S
}.

Section Compound.
Context {A S : Type} `{DataScaler A S}.

(** The dataclass field [scalers] and the attribute [names] that
    [__post_init__] sets. *)
Record CompoundDataScaler : Type := mkCompound {
  scalers : list S;
  compound_names : list string
}.

(** [name in names] *)
Definition mem (n : string) (ns : list string) : bool :=
  existsb (String.eqb n) ns.

(** The inner loop of [__post_init__]: every name of one scaler is checked
    against the set of names seen so far, then added to it. *)
Definition check_names (seen : list string) (ns : list string)
  : result (list string) :=
  for_each (fun seen n => if mem n seen then Raise ValueError else Ok (n :: seen))
           ns seen.

(** [functools.reduce(operator.add, (s.names for s in scalers))]: without an
    initial value, an empty sequence is a [TypeError]. *)
Definition reduce_add (tuples : list (list string)) : result (list string) :=
  match tuples with
  | [] => Raise TypeError
  | t :: rest => Ok (fold_left (fun acc u => acc ++ u) rest t)
  end.

(** [CompoundDataScaler(scalers)]: the generated [__init__] followed by
    [__post_init__]. *)
Definition CompoundDataScaler_init (ss : list S) : result CompoundDataScaler :=
  _ <- for_each (fun seen s => check_names seen (scaler_names s)) ss [] ;;
  ns <- reduce_add (map scaler_names ss) ;;
  Ok (mkCompound ss ns).

(** [tuple(n for n in scaler.names if n in names)] *)
Definition overlap (s : S) (requested : list string) : list string :=
  filter (fun n => mem n requested) (scaler_names s).

(** [Data(xp.asarray(data), names=names) if not isinstance(data, Data) else data] *)
Definition as_data (data : DataOrArray A) (requested : list string) : Data A :=
  match data with
  | IsData d => d
  | IsArray a => mkData a requested
  end.

Definition is_data (data : DataOrArray A) : bool :=
  match data with
  | IsData _ => true
  | IsArray _ => false
  end.

(** The common body of [transform] and [inverse_transform]; [apply] is the
    member's method the loop calls. *)
Definition route
  (apply : S -> DataOrArray A -> list string -> option ArrayNamespace
           -> result (DataOrArray A))
  (self : CompoundDataScaler) (data : DataOrArray A) (requested : list string)
  (xp : option ArrayNamespace) : result (DataOrArray A) :=
  match xp with
  | None => Raise ValueError
  | Some _ =>
      let data_ := as_data data requested in
      xds <- traverse
               (fun scaler =>
                  let ns := overlap scaler requested in
                  sub <- Data_getitem data_ ns ;;
                  v <- apply scaler (IsData sub) ns xp ;;
                  Ok (array_of v))
               (scalers self) ;;
      xd <- hstack xds ;;
      Ok (if is_data data
          then IsData (mkData xd (compound_names self))
          else IsArray xd)
  end.

(** [CompoundDataScaler.transform(data, names, xp=xp)] *)
Definition transform := route scaler_transform.

(** [CompoundDataScaler.inverse_transform(data, names, xp=xp)] *)
Definition inverse_transform := route scaler_inverse_transform.

(** The generator of [__getitem__]: the members that own a requested name,
    each reduced to the names it shares with the request. *)
Fixpoint contributing (ss : list S) (names_tuple : list string) : result (list S) :=
  match ss with
  | [] => Ok []
  | scaler :: rest =>
      match overlap scaler names_tuple with
      | [] => contributing rest names_tuple
      | ns =>
          reduced <- scaler_getitem scaler ns ;;
          others <- contributing rest names_tuple ;;
          Ok (reduced :: others)
      end
  end.

(** What [__getitem__] returns: one member, or a new compound scaler. *)
Inductive Reduced : Type :=
| Single (s : S)
| Compound (c : CompoundDataScaler).

(** [CompoundDataScaler.__getitem__(names)]; [names] is a string or a tuple. *)
Definition getitem (self : CompoundDataScaler) (names : string + list string)
  : result Reduced :=
  let names_tuple := match names with inl s => [s] | inr t => t end in
  found <- contributing (scalers self) names_tuple ;;
  if Nat.ltb 1 (List.length found)
  then c <- CompoundDataScaler_init found ;; Ok (Compound c)
  else match found with
       | [] => Raise IndexError
       | s :: _ => Ok (Single s)
       end.

(** ** Construction *)

Lemma mem_In (n : string) (ns : list string) : mem n ns = true <-> In n ns.
Proof.
  unfold mem. rewrite existsb_exists. split.
  - intros [x [I E]]. apply String.eqb_eq in E. now subst.
  - intro I. exists n. split; [exact I | apply String.eqb_refl].
Qed.

Lemma mem_not_In (n : string) (ns : list string) : mem n ns = false <-> ~ In n ns.
Proof.
  rewrite <- mem_In. destruct (mem n ns); split; congruence.
Qed.

Lemma check_names_distinct (ns : list string) :
  forall seen,
    NoDup (ns ++ seen) -> check_names seen ns = Ok (rev ns ++ seen).
Proof.
  unfold check_names. induction ns as [| n ns IH]; intros seen N; simpl.
  - reflexivity.
  - simpl in N. inversion N as [| ? ? X N']; subst.
    assert (F : mem n seen = false).
    { apply mem_not_In. intro I. apply X. apply in_or_app. now right. }
    rewrite F. simpl. rewrite IH.
    + now rewrite <- app_assoc.
    + apply NoDup_app.
      * now apply NoDup_app_remove_r in N'.
      * constructor; [| now apply NoDup_app_remove_l in N'].
        intro I. apply X. apply in_or_app. now right.
      * intros a I [<- | J].
        -- apply X. apply in_or_app. now left.
        -- now apply (NoDup_app_disjoint ns seen a N').
Qed.

Lemma for_each_app {X St : Type} (body : St -> X -> result St) (xs ys : list X) :
  forall acc,
    for_each body (xs ++ ys) acc
    = (acc' <- for_each body xs acc ;; for_each body ys acc').
Proof.
  induction xs as [| x xs IH]; intro acc; simpl.
  - reflexivity.
  - destruct (body acc x) as [acc' | e]; simpl; [apply IH | reflexivity].
Qed.

(** The nested loop of [__post_init__] is one pass over all the names. *)
Lemma check_all_names (ss : list S) :
  forall seen,
    for_each (fun seen s => check_names seen (scaler_names s)) ss seen
    = check_names seen (List.concat (map scaler_names ss)).
Proof.
  induction ss as [| s ss IH]; intro seen; simpl.
  - reflexivity.
  - unfold check_names in *. rewrite for_each_app.
    destruct (for_each
                (fun seen0 n => if mem n seen0 then Raise ValueError else Ok (n :: seen0))
                (scaler_names s) seen) as [seen' | e]; simpl;
      [apply IH | reflexivity].
Qed.

Lemma fold_left_app_concat (rest : list (list string)) :
  forall t, fold_left (fun acc u => acc ++ u) rest t = t ++ List.concat rest.
Proof.
  induction rest as [| u rest IH]; intro t; simpl.
  - now rewrite app_nil_r.
  - rewrite IH. now rewrite <- app_assoc.
Qed.

(** Members with pairwise different names make a compound scaler whose names
    are theirs, in order. *)
Lemma CompoundDataScaler_init_distinct (ss : list S) :
  ss <> [] ->
  NoDup (List.concat (map scaler_names ss)) ->
  CompoundDataScaler_init ss
  = Ok (mkCompound ss (List.concat (map scaler_names ss))).
Proof.
  intros NE N. unfold CompoundDataScaler_init.
  rewrite check_all_names, check_names_distinct;
    [| now rewrite app_nil_r].
  simpl. destruct ss as [| s ss]; [contradiction |]. simpl.
  now rewrite fold_left_app_concat.
Qed.

(** ** Routing columns to their owners *)

Lemma overlap_all (s : S) (requested : list string) :
  (forall n, In n (scaler_names s) -> In n requested) ->
  overlap s requested = scaler_names s.
Proof.
  intro I. unfold overlap. apply forallb_filter_id. apply forallb_forall.
  intros n J. apply mem_In. now apply I.
Qed.

(** The round-trip identity of one member on its own columns: [transform]
    keeps the shape, and [inverse_transform] returns the array it was given. *)
Definition round_trips (s : S) : Prop :=
  forall (a : Array A) (n : nat) (xp : ArrayNamespace),
    shaped n (List.length (scaler_names s)) a ->
    exists t u,
      scaler_transform s (IsData (mkData a (scaler_names s))) (scaler_names s)
                       (Some xp) = Ok t
      /\ shaped n (List.length (scaler_names s)) (array_of t)
      /\ scaler_inverse_transform
           s (IsData (mkData (array_of t) (scaler_names s))) (scaler_names s)
           (Some xp) = Ok u
      /\ array_of u = a.

(** Round trip through two members, for data that has every column the
    members own: the result holds the columns of [X] in the members' order. *)
Lemma compound_round_trip_by_name (S1 S2 : S) (X X' : Data A) (xp : ArrayNamespace) :
  NoDup (scaler_names S1 ++ scaler_names S2) ->
  round_trips S1 ->
  round_trips S2 ->
  (forall n, In n (scaler_names S1 ++ scaler_names S2) -> In n (names X)) ->
  Data_getitem X (scaler_names S1 ++ scaler_names S2) = Ok X' ->
  let C := mkCompound [S1; S2] (scaler_names S1 ++ scaler_names S2) in
  exists T,
    transform C (IsData X) (names X) (Some xp) = Ok (IsData T)
    /\ inverse_transform C (IsData T) (names X) (Some xp) = Ok (IsData X').
Proof.
  intros N R1 R2 I G C.
  set (N1 := scaler_names S1) in *. set (N2 := scaler_names S2) in *.
  assert (O1 : overlap S1 (names X) = N1).
  { apply overlap_all. intros n J. apply I. apply in_or_app. now left. }
  assert (O2 : overlap S2 (names X) = N2).
  { apply overlap_all. intros n J. apply I. apply in_or_app. now right. }
  unfold Data_getitem in G.
  destruct (traverse (fun row => select (names X) row (N1 ++ N2)) (array X))
    as [rows |] eqn:Sel; simpl in G; [| discriminate].
  injection G as <-.
  destruct (traverse_select_app _ _ _ _ Sel)
    as [c1 [c2 [T1 [T2 [J [Sh1 Sh2]]]]]].
  destruct (R1 c1 _ xp Sh1) as [t1 [u1 [Tr1 [St1 [In1 U1]]]]].
  destruct (R2 c2 _ xp Sh2) as [t2 [u2 [Tr2 [St2 [In2 U2]]]]].
  fold N1 in Tr1, St1, In1. fold N2 in Tr2, St2, In2.
  destruct (@join_rows_select A N1 N2 N (array_of t1) (array_of t2))
    as [xd [Jt [G1 G2]]].
  { destruct St1 as [L1 _], St2 as [L2 _]. congruence. }
  { apply St1. }
  { apply St2. }
  exists (mkData xd (N1 ++ N2)). split.
  - unfold transform, route. simpl. rewrite O1, O2.
    unfold Data_getitem. rewrite T1, T2. simpl.
    rewrite Tr1. simpl. rewrite Tr2. simpl. rewrite Jt. reflexivity.
  - unfold inverse_transform, route. simpl. rewrite O1, O2.
    unfold Data_getitem. simpl. rewrite G1, G2. simpl.
    rewrite In1. simpl. rewrite In2. simpl. rewrite U1, U2, J. reflexivity.
Qed.

(** C3, for data laid out as the compound scaler is.  For members [S1] and
    [S2] with pairwise different names, each satisfying its own round-trip
    identity, and a named container [X] whose columns are the names of [S1]
    followed by the names of [S2], [CompoundDataScaler((S1, S2))] is
    constructed and [inverse_transform] of [transform] of [X], both with
    [names = X.names], is [X]. *)
Theorem compound_round_trip (S1 S2 : S) (X : Data A) (n : nat) (xp : ArrayNamespace) :
  NoDup (scaler_names S1 ++ scaler_names S2) ->
  round_trips S1 ->
  round_trips S2 ->
  names X = scaler_names S1 ++ scaler_names S2 ->
  shaped n (List.length (names X)) (array X) ->
  exists C T,
    CompoundDataScaler_init [S1; S2] = Ok C
    /\ transform C (IsData X) (names X) (Some xp) = Ok (IsData T)
    /\ inverse_transform C (IsData T) (names X) (Some xp) = Ok (IsData X).
Proof.
  intros N R1 R2 E Sh.
  exists (mkCompound [S1; S2] (scaler_names S1 ++ scaler_names S2)).
  assert (G : Data_getitem X (scaler_names S1 ++ scaler_names S2) = Ok X).
  { rewrite <- E. apply Data_getitem_self with (n := n); [| exact Sh].
    now rewrite E. }
  destruct (@compound_round_trip_by_name S1 S2 X X xp N R1 R2) as [T [Tr Inv]];
    trivial.
  { intros m J. now rewrite E. }
  exists T. split; [| split; assumption].
  rewrite CompoundDataScaler_init_distinct.
  - simpl. now rewrite app_nil_r.
  - discriminate.
  - simpl. now rewrite app_nil_r.
Qed.

(** ** Reduction to a subset of names *)

(** The member owns at least one requested name. *)
Definition owns (requested : list string) (s : S) : bool :=
  match overlap s requested with
  | [] => false
  | _ :: _ => true
  end.

(** The member's own [__getitem__], asked for the names it shares with the
    request, returns a scaler over exactly those names. *)
Definition reduces (requested : list string) (s : S) : Prop :=
  exists s',
    scaler_getitem s (overlap s requested) = Ok s'
    /\ scaler_names s' = overlap s requested.

Lemma contributing_owners (requested : list string) (ss : list S) :
  Forall (reduces requested) ss ->
  exists found,
    contributing ss requested = Ok found
    /\ Forall2 (fun s s' => scaler_getitem s (overlap s requested) = Ok s')
               (filter (owns requested) ss) found
    /\ map scaler_names found
       = map (fun s => overlap s requested) (filter (owns requested) ss).
Proof.
  induction 1 as [| s ss [s' [G E]] F [found [C [F2 M]]]]; simpl.
  - exists []. repeat split. constructor.
  - destruct (overlap s requested) as [| n ns] eqn:O.
    + assert (Ow : owns requested s = false) by (unfold owns; now rewrite O).
      rewrite Ow. exists found. auto.
    + assert (Ow : owns requested s = true) by (unfold owns; now rewrite O).
      rewrite Ow, G. simpl. rewrite C. simpl. exists (s' :: found).
      repeat split.
      * constructor; [now rewrite O | exact F2].
      * simpl. now rewrite E, M, O.
Qed.

Lemma contributing_no_owner (requested : list string) (ss : list S) :
  filter (owns requested) ss = [] -> contributing ss requested = Ok [].
Proof.
  induction ss as [| s ss IH]; simpl; [reflexivity |].
  destruct (overlap s requested) as [| n ns] eqn:O.
  - assert (Ow : owns requested s = false) by (unfold owns; now rewrite O).
    now rewrite Ow.
  - assert (Ow : owns requested s = true) by (unfold owns; now rewrite O).
    rewrite Ow. discriminate.
Qed.

Definition names_tuple (names : string + list string) : list string :=
  match names with
  | inl s => [s]
  | inr t => t
  end.

(** With no owner of a requested name the lookup is [scalers[0]] on the empty
    tuple. *)
Lemma getitem_no_owner (self : CompoundDataScaler) (names : string + list string) :
  filter (owns (names_tuple names)) (scalers self) = [] ->
  getitem self names = Raise IndexError.
Proof.
  intro E. unfold getitem. fold (names_tuple names).
  now rewrite contributing_no_owner.
Qed.

Lemma In_overlaps (requested : list string) (ss : list S) (a : string) :
  In a (List.concat (map (fun s => overlap s requested) (filter (owns requested) ss))) ->
  In a (List.concat (map scaler_names ss)).
Proof.
  induction ss as [| s ss IH]; simpl; [tauto |].
  intro I. apply in_or_app.
  destruct (owns requested s); simpl in I.
  - apply in_app_or in I. destruct I as [I | I]; [left | right; now apply IH].
    unfold overlap in I. now apply filter_In in I.
  - right. now apply IH.
Qed.

Lemma NoDup_overlaps (requested : list string) (ss : list S) :
  NoDup (List.concat (map scaler_names ss)) ->
  NoDup (List.concat (map (fun s => overlap s requested) (filter (owns requested) ss))).
Proof.
  induction ss as [| s ss IH]; simpl; intro N; [constructor |].
  pose proof (NoDup_app_remove_l _ _ N) as Nr.
  destruct (owns requested s); simpl; [| now apply IH].
  apply NoDup_app.
  - unfold overlap. apply NoDup_filter. now apply NoDup_app_remove_r in N.
  - now apply IH.
  - intros a I J. apply In_overlaps in J.
    apply (NoDup_app_disjoint _ _ a N); [| exact J].
    unfold overlap in I. now apply filter_In in I.
Qed.


(** ** Ownership, stated without the comprehension of [__getitem__] *)

(** A member owns a requested name. *)
Definition owner (requested : list string) (s : S) : Prop :=
  exists n, In n (scaler_names s) /\ In n requested.

Lemma owner_dec (requested : list string) (s : S) :
  {owner requested s} + {~ owner requested s}.
Proof.
  unfold owner. induction (scaler_names s) as [| n ns IH].
  - right. intros [n [[] _]].
  - destruct (in_dec string_dec n requested) as [I | NI].
    + left. exists n. split; [now left | exact I].
    + destruct IH as [O | NO].
      * left. destruct O as [m [I J]]. exists m. split; [now right | exact J].
      * right. intros [m [[E | I] J]]; [now subst m |].
        apply NO. now exists m.
Defined.

(** The members that own a requested name, in the order of [scalers]. *)
Definition owners (requested : list string) (ss : list S) : list S :=
  filter (fun s => if owner_dec requested s then true else false) ss.

(** The names of a member that are requested, in the member's order. *)
Definition shared_names (s : S) (requested : list string) : list string :=
  filter (fun n => if in_dec string_dec n requested then true else false)
         (scaler_names s).







End Compound.

(** ** A member for examples: every entry is moved by a constant *)

Record OffsetScaler : Type := mkOffset {
  offset_names : list string;
  offset : Z
}.

Definition offset_apply (f : Z -> Z) (v : DataOrArray Z) (ns : list string)
  (xp : option ArrayNamespace) : result (DataOrArray Z) :=
  match xp with
  | None => Raise ValueError
  | Some _ => Ok (IsData (mkData (map (map f) (array_of v)) ns))
  end.

#[export] Instance OffsetScaler_DataScaler : DataScaler Z OffsetScaler := {|
  scaler_names := offset_names;
  scaler_transform := fun s => offset_apply (fun x => (x + offset s)%Z);
  scaler_inverse_transform := fun s => offset_apply (fun x => (x - offset s)%Z);
  scaler_getitem := fun s ns => Ok (mkOffset ns (offset s))
|}.

Lemma offset_round_trips (s : OffsetScaler) : round_trips s.
Proof.
  intros a n xp [L F]. simpl.
  exists (IsData (mkData (map (map (fun x => (x + offset s)%Z)) a) (offset_names s))),
         (IsData (mkData a (offset_names s))).
  split; [reflexivity |]. split; [| split; [| reflexivity]].
  - simpl. split; [now rewrite length_map |].
    apply Forall_map. eapply Forall_impl; [| exact F].
    intros r E. simpl in *. now rewrite length_map.
  - unfold offset_apply. simpl. do 3 f_equal.
    rewrite map_map. rewrite <- (map_id a) at 2. apply map_ext.
    intro r. rewrite map_map. rewrite <- (map_id r) at 2. apply map_ext.
    intro x. lia.
Qed.

Lemma offset_reduces (requested : list string) (s : OffsetScaler) :
  reduces requested s.
Proof. eexists. split; reflexivity. Qed.

Section Examples.
Local Open Scope string_scope.
Local Open Scope Z_scope.

Definition member_a : OffsetScaler := mkOffset ["a"] 1.
Definition member_b : OffsetScaler := mkOffset ["b"] 10.

(** C3 on two one-column members and a two-row container. *)
Lemma compound_round_trip_witness :
  exists C T,
    CompoundDataScaler_init [member_a; member_b] = Ok C
    /\ transform C (IsData (mkData [[1; 2]; [3; 4]] ["a"; "b"])) ["a"; "b"]
                 (Some Namespace) = Ok (IsData T)
    /\ inverse_transform C (IsData T) ["a"; "b"] (Some Namespace)
       = Ok (IsData (mkData [[1; 2]; [3; 4]] ["a"; "b"])).
Proof.
  apply (@compound_round_trip Z OffsetScaler _ member_a member_b
           (mkData [[1; 2]; [3; 4]] ["a"; "b"]) 2%nat Namespace).
  - simpl. repeat constructor; simpl; intuition discriminate.
  - apply offset_round_trips.
  - apply offset_round_trips.
  - reflexivity.
  - split; [reflexivity | repeat constructor].
Defined.

(** C3 as stated fails when the columns of [X] are not in the members' order:
    the names [("b", "a")] are a subset of the members' names, yet the round
    trip returns the columns in the order [("a", "b")]. *)
Lemma compound_round_trip_reordered :
  let X := mkData [[2; 1]] ["b"; "a"] in
  let C := mkCompound [member_a; member_b] ["a"; "b"] in
  let T := mkData [[2; 12]] ["a"; "b"] in
  NoDup (scaler_names member_a ++ scaler_names member_b)
  /\ round_trips member_a /\ round_trips member_b
  /\ incl (names X) (scaler_names member_a ++ scaler_names member_b)
  /\ CompoundDataScaler_init [member_a; member_b] = Ok C
  /\ transform C (IsData X) (names X) (Some Namespace) = Ok (IsData T)
  /\ inverse_transform C (IsData T) (names X) (Some Namespace)
     = Ok (IsData (mkData [[1; 2]] ["a"; "b"]))
  /\ IsData (mkData [[1; 2]] ["a"; "b"]) <> IsData X
  /\ array (mkData [[1; 2]] ["a"; "b"]) <> array X.
Proof.
  repeat split; try reflexivity; try apply offset_round_trips;
    try discriminate.
  - simpl. repeat constructor; simpl; intuition discriminate.
  - intros n I. simpl in *. tauto.
Qed.

(** The same round trip on a container that lacks a column: both transforms
    label their result with [self.names], all the names of the compound
    scaler, so what comes back is not [X]. *)
Lemma compound_round_trip_missing_column :
  let X := mkData [[1]] ["a"] in
  let C := mkCompound [member_a; member_b] ["a"; "b"] in
  let T := mkData [[2]] ["a"; "b"] in
  transform C (IsData X) (names X) (Some Namespace) = Ok (IsData T)
  /\ inverse_transform C (IsData T) (names X) (Some Namespace)
     = Ok (IsData (mkData [[1]] ["a"; "b"]))
  /\ IsData (mkData [[1]] ["a"; "b"]) <> IsData X.
Proof.
  repeat split; try reflexivity. discriminate.
Qed.



(** The owners and the shared names of that request. *)
Example owners_of_request :
  owners ["a"; "c"] [member_a; member_b; mkOffset ["c"; "d"] 5]
  = [member_a; mkOffset ["c"; "d"] 5]
  /\ shared_names (mkOffset ["c"; "d"] 5) ["a"; "c"] = ["c"].
Proof. split; reflexivity. Qed.

Example getitem_two_owners :
  getitem (mkCompound [member_a; member_b; mkOffset ["c"; "d"] 5] ["a"; "b"; "c"; "d"])
          (inr ["a"; "c"])
  = Ok (Compound (mkCompound [mkOffset ["a"] 1; mkOffset ["c"] 5] ["a"; "c"])).
Proof. reflexivity. Qed.

Example getitem_one_owner :
  getitem (mkCompound [member_a; member_b] ["a"; "b"]) (inl "b") = Ok (Single (mkOffset ["b"] 10)).
Proof. reflexivity. Qed.

Example getitem_unknown_name :
  getitem (mkCompound [member_a; member_b] ["a"; "b"]) (inl "z") = Raise IndexError.
Proof. reflexivity. Qed.

End Examples.

End Scale.

(* ================================================================== *)
(** * Parameter sets *)

Module Params.

(** Modelled from the spec: [stream_ml.core.params.core.Params] is not among
    the sources.  A frozen mapping from names to parameter values; in a
    mixture the names of a component's parameters start with the component's
    name and a dot. *)
Definition Params (V : Type) : Type := Dict.t string V.

(** [key[n:]] *)
Definition drop_chars (n : nat) (key : string) : string :=
  String.substring n (String.length key - n) key.

(** Modelled from the spec: [get_prefixed(name)] is the sub-[Params] of the
    keys that start with [name + "."], with that prefix stripped. *)
Definition get_prefixed {V : Type} (pars : Params V) (name : string) : Params V :=
  let p := String.append name "." in
  flat_map
    (fun kv =>
       if String.prefix p (fst kv)
       then [(drop_chars (String.length p) (fst kv), snd kv)]
       else [])
    pars.

Section Examples.
Local Open Scope string_scope.

Example get_prefixed_bkg (V : Type) (w s : V) :
  get_prefixed [("bkg.weight", w); ("stream.weight", s)] "bkg" = [("weight", w)].
Proof. reflexivity. Qed.

End Examples.

End Params.

Import Params.

(* ================================================================== *)
(** * [stream_ml/jax/mixture.py] *)

Module Mixture.

Local Open Scope R_scope.

(** [jax.scipy.special.logsumexp] of one row, over the reals. *)
Definition logsumexp (row : list R) : R :=
  ln (fold_right Rplus 0 (map exp row)).

(** The sum of one row. *)
Definition sum_row (row : list R) : R := fold_right Rplus 0 row.

(** The method [sum] of a jax array, called as [a.sum(kw=1)] with one
    keyword argument.  Its parameters are [axis], [dtype], [out],
    [keepdims], [initial], [where] and [promote_integers]: with [axis=1] it
    sums along the column axis, and a keyword it does not have is a
    [TypeError]. *)
Definition array_sum (kw : string) (a : Array R) : result (list R) :=
  if String.eqb kw "axis" then Ok (map sum_row a) else Raise TypeError.

(** Elementwise [a + b] on arrays of one shape. *)
Fixpoint add_rows (r s : list R) : result (list R) :=
  match r, s with
  | [], [] => Ok []
  | x :: r', y :: s' => rest <- add_rows r' s' ;; Ok ((x + y) :: rest)
  | _, _ => Raise ValueError
  end.

Fixpoint add_arrays (a b : Array R) : result (Array R) :=
  match a, b with
  | [], [] => Ok []
  | r :: a', s :: b' =>
      row <- add_rows r s ;; rest <- add_arrays a' b' ;; Ok (row :: rest)
  | _, _ => Raise ValueError
  end.

Section Model.
Variables V DataT : Type.

(** What a mixture consumes from a component. *)
Record Model : Type := mkModel {
  model_ln_likelihood_arr :
    Params V -> DataT -> list (Array R) -> result (Array R);
  model_ln_prior_arr : Params V -> result (Array R)
}.

(** A Python value in argument position. *)
Inductive PyArg : Type :=
| ArgParams (p : Params V)
| ArgArray (a : Array R)
| ArgData (d : DataT)
| ArgModel (m : Model).

(** A top-level prior: the body of its [logpdf], whose parameters are those
    of [PriorBounds.logpdf]: [mpars], [data], [model] and the optional
    [current_lnpdf]. *)
Record Prior : Type := mkPrior {
  logpdf : PyArg -> PyArg -> PyArg -> option PyArg -> result (Array R)
}.

(** A call of [prior.logpdf] with positional arguments [args]: the method's
    parameters are [self, mpars, data, model, current_lnpdf=None], all
    positional-only, so it takes three or four arguments; any other number
    is a [TypeError]. *)
Definition call_logpdf (prior : Prior) (args : list PyArg) : result (Array R) :=
  match args with
  | [mpars; data; model] => logpdf prior mpars data model None
  | [mpars; data; model; current_lnpdf] =>
      logpdf prior mpars data model (Some current_lnpdf)
  | _ => Raise TypeError
  end.

(** The fields [components] and [priors], both ordered mappings. *)
Record MixtureModel : Type := mkMixture {
  components : Dict.t string Model;
  priors : Dict.t string Prior
}.

(** [MixtureModel.ln_likelihood_arr(pars, data, *args)] *)
Definition ln_likelihood_arr (self : MixtureModel) (pars : Params V)
  (data : DataT) (args : list (Array R)) : result (Array R) :=
  liks <- traverse
            (fun nm => model_ln_likelihood_arr (snd nm) (get_prefixed pars (fst nm))
                                         data args)
            (components self) ;;
  stacked <- hstack liks ;;
  Ok (add_axis (map logsumexp stacked)).

(** [MixtureModel.ln_prior_arr(pars)] *)
Definition ln_prior_arr (self : MixtureModel) (pars : Params V)
  : result (Array R) :=
  lps <- traverse
           (fun nm => model_ln_prior_arr (snd nm) (get_prefixed pars (fst nm)))
           (components self) ;;
  stacked <- hstack lps ;;
  summed <- array_sum "dim" stacked ;;
  let lp := add_axis summed in
  for_each
    (fun lp prior =>
       term <- call_logpdf prior [ArgParams pars; ArgArray lp] ;;
       add_arrays lp term)
    (map snd (priors self)) lp.

(** The aggregation the documentation of [logpdf] describes: the components'
    priors are summed along the column axis and the running total is handed
    over as [current_lnpdf]. *)
Definition ln_prior_arr_threaded (self : MixtureModel) (pars : Params V)
  (data : DataT) (model : Model) : result (Array R) :=
  lps <- traverse
           (fun nm => model_ln_prior_arr (snd nm) (get_prefixed pars (fst nm)))
           (components self) ;;
  stacked <- hstack lps ;;
  let lp := add_axis (map sum_row stacked) in
  for_each
    (fun lp prior =>
       term <- call_logpdf prior
                 [ArgParams pars; ArgData data; ArgModel model; ArgArray lp] ;;
       add_arrays lp term)
    (map snd (priors self)) lp.

(** ** The likelihood, entry by entry *)

Lemma join_rows_map {X : Type} (f g : X -> list R) (l : list X) :
  join_rows (map f l) (map g l) = Ok (map (fun i => f i ++ g i) l).
Proof.
  induction l as [| x l IH]; simpl; [reflexivity |].
  rewrite IH. reflexivity.
Qed.

Lemma map_nth_seq {X : Type} (d : X) (c : list X) :
  map (fun i => nth i c d) (seq 0 (List.length c)) = c.
Proof.
  induction c as [| x c IH]; simpl; [reflexivity |].
  f_equal. rewrite <- seq_shift, map_map. exact IH.
Qed.

(** Stacking [k >= 1] arrays of [n] rows gives the array whose row [i] is
    the concatenation of their [i]-th rows, in order. *)
Lemma hstack_rows (n : nat) (arrays : list (Array R)) :
  arrays <> [] ->
  Forall (fun a => List.length a = n) arrays ->
  hstack arrays
  = Ok (map (fun i => List.concat (map (fun a => nth i a []) arrays)) (seq 0 n)).
Proof.
  induction arrays as [| a arrays IH]; intros NE F; [contradiction |].
  inversion F as [| ? ? L F']; subst.
  destruct arrays as [| a' arrays].
  - simpl. rewrite <- (map_nth_seq [] a) at 1. f_equal.
    apply map_ext. intro i. now rewrite app_nil_r.
  - change (hstack (a :: a' :: arrays))
      with (r <- hstack (a' :: arrays) ;; join_rows a r).
    rewrite IH; [| discriminate | exact F']. simpl Py.bind.
    rewrite <- (map_nth_seq [] a) at 1.
    now rewrite join_rows_map.
Qed.

Lemma traverse_likelihoods (self : MixtureModel) (pars : Params V) (data : DataT)
  (args : list (Array R)) (n : nat) (liks : list (Array R)) :
  Forall2
    (fun nm lik =>
       model_ln_likelihood_arr (snd nm) (get_prefixed pars (fst nm)) data args
       = Ok lik
       /\ List.length lik = n)
    (components self) liks ->
  traverse
    (fun nm => model_ln_likelihood_arr (snd nm) (get_prefixed pars (fst nm))
                                       data args)
    (components self)
  = Ok liks
  /\ Forall (fun a => List.length a = n) liks.
Proof.
  induction 1 as [| nm c comps cols [E L] F [IH1 IH2]]; simpl.
  - split; [reflexivity | constructor].
  - rewrite E. simpl. rewrite IH1. simpl. split; [reflexivity |].
    now constructor.
Qed.

(** C1. For a mixture with at least one component, when every component,
    evaluated at its own slice [pars.get_prefixed(name)], returns an array of
    [n] rows, [ln_likelihood_arr] is the log-sum-exp along the column axis of
    the horizontal stack of those arrays, as one column: row [i] holds the
    log-sum-exp of the components' [i]-th rows joined in the order of the
    component mapping. *)
Theorem ln_likelihood_arr_logsumexp (self : MixtureModel) (pars : Params V)
  (data : DataT) (args : list (Array R)) (n : nat) (liks : list (Array R)) :
  components self <> [] ->
  Forall2
    (fun nm lik =>
       model_ln_likelihood_arr (snd nm) (get_prefixed pars (fst nm)) data args
       = Ok lik
       /\ List.length lik = n)
    (components self) liks ->
  exists stacked,
    hstack liks = Ok stacked
    /\ stacked
       = map (fun i => List.concat (map (fun lik => nth i lik []) liks)) (seq 0 n)
    /\ ln_likelihood_arr self pars data args
       = Ok (add_axis (map logsumexp stacked))
    /\ ln_likelihood_arr self pars data args
       = Ok (map (fun i =>
                    [logsumexp (List.concat (map (fun lik => nth i lik []) liks))])
                 (seq 0 n)).
Proof.
  intros NE F.
  destruct (@traverse_likelihoods self pars data args n liks F) as [T L].
  assert (NC : liks <> []).
  { intro E. subst. inversion F as [E' |]. now apply NE. }
  pose proof (@hstack_rows n liks NC L) as Hs.
  eexists. split; [exact Hs |]. split; [reflexivity |].
  unfold ln_likelihood_arr. rewrite T. simpl. rewrite Hs. simpl.
  split; [reflexivity |]. unfold add_axis. now rewrite !map_map.
Qed.

(** The value is the logarithm of the summed component likelihoods. *)
Lemma exp_logsumexp (row : list R) :
  row <> [] -> exp (logsumexp row) = fold_right Rplus 0 (map exp row).
Proof.
  intro NE. unfold logsumexp. apply exp_ln.
  destruct row as [| x row]; [contradiction |]. simpl.
  apply Rplus_lt_le_0_compat; [apply exp_pos |].
  clear. induction row as [| y row IH]; simpl; [apply Rle_refl |].
  apply Rplus_le_le_0_compat; [left; apply exp_pos | exact IH].
Qed.

(** ** The prior *)

(** Whatever the prior computes, the call [prior.logpdf(pars, lp)] made by
    [ln_prior_arr] has too few arguments. *)
Lemma call_logpdf_two_arguments (prior : Prior) (pars : Params V) (lp : Array R) :
  call_logpdf prior [ArgParams pars; ArgArray lp] = Raise TypeError.
Proof. reflexivity. Qed.

(** [ln_prior_arr] cannot return, with or without top-level priors: once the
    components' priors are stacked, their sum is asked for with the keyword
    [dim], which the method [sum] of a jax array does not have. *)
Lemma ln_prior_arr_raises (self : MixtureModel) (pars : Params V)
  (lps : list (Array R)) (stacked : Array R) :
  traverse (fun nm => model_ln_prior_arr (snd nm) (get_prefixed pars (fst nm)))
           (components self) = Ok lps ->
  hstack lps = Ok stacked ->
  ln_prior_arr self pars = Raise TypeError.
Proof.
  intros T Hs. unfold ln_prior_arr. rewrite T. simpl. rewrite Hs. reflexivity.
Qed.

(** With the keyword [axis] the sum is the row sums. *)
Lemma array_sum_axis (a : Array R) : array_sum "axis" a = Ok (map sum_row a).
Proof. reflexivity. Qed.

End Model.

Arguments ArgParams {V DataT} p.
Arguments ArgArray {V DataT} a.
Arguments ArgData {V DataT} d.
Arguments ArgModel {V DataT} m.

Section Examples.
Local Open Scope string_scope.

(** A component whose likelihood and prior are fixed columns. *)
Definition constant_model (lik prior : list R) : Model unit unit :=
  mkModel (fun _ _ _ => Ok (add_axis lik)) (fun _ => Ok (add_axis prior)).

(** A prior in the manner of [NoBounds.logpdf] with [param_name] set: it adds
    nothing, whatever the running total. *)
Definition zero_prior : Prior unit unit :=
  mkPrior (fun _ _ _ current =>
             match current with
             | Some (ArgArray lp) => Ok (map (map (fun _ => 0)) lp)
             | _ => Ok [[0]]
             end).

(** C1 on a mixture of two components with two data rows. *)
Lemma ln_likelihood_arr_logsumexp_witness :
  exists stacked,
    hstack [add_axis [1; 2]; add_axis [3; 4]] = Ok stacked
    /\ stacked
       = map (fun i =>
                List.concat (map (fun lik => nth i lik [])
                                 [add_axis [1; 2]; add_axis [3; 4]]))
             (seq 0 2)
    /\ ln_likelihood_arr
         (mkMixture [("stream", constant_model [1; 2] [0; 0]);
                     ("bkg", constant_model [3; 4] [0; 0])] [])
         [] tt []
       = Ok (add_axis (map logsumexp stacked))
    /\ ln_likelihood_arr
         (mkMixture [("stream", constant_model [1; 2] [0; 0]);
                     ("bkg", constant_model [3; 4] [0; 0])] [])
         [] tt []
       = Ok (map (fun i =>
                    [logsumexp
                       (List.concat (map (fun lik => nth i lik [])
                                         [add_axis [1; 2]; add_axis [3; 4]]))])
                 (seq 0 2)).
Proof.
  apply (@ln_likelihood_arr_logsumexp unit unit
           (mkMixture [("stream", constant_model [1; 2] [0; 0]);
                       ("bkg", constant_model [3; 4] [0; 0])] [])
           [] tt [] 2%nat [add_axis [1; 2]; add_axis [3; 4]]).
  - discriminate.
  - repeat constructor.
Defined.

(** For two components with columns [L1] and [L2], row [i] of the result is
    [ln (exp L1[i] + exp L2[i])]. *)
Example ln_likelihood_arr_two_components :
  ln_likelihood_arr
    (mkMixture [("stream", constant_model [1; 2] [0; 0]);
                ("bkg", constant_model [3; 4] [0; 0])] [])
    [] tt []
  = Ok [[ln (exp 1 + (exp 3 + 0))]; [ln (exp 2 + (exp 4 + 0))]].
Proof. reflexivity. Qed.

(** C2 at a mixture of one component and one top-level prior:
    [ln_prior_arr] raises [TypeError], and so does the call of [logpdf] it
    makes with the parameters and the running total alone, where handing the
    running total over as [current_lnpdf] gives the summed priors. *)
Theorem ln_prior_arr_prior_call_raises :
  ln_prior_arr (mkMixture [("bkg", constant_model [0] [5])]
                          [("weight", zero_prior)]) []
  = Raise TypeError
  /\ call_logpdf zero_prior [ArgParams []; ArgArray [[5]]] = Raise TypeError
  /\ exists lp,
       ln_prior_arr_threaded
         (mkMixture [("bkg", constant_model [0] [5])] [("weight", zero_prior)])
         [] tt (constant_model [0] [5])
       = Ok [[lp]]
       /\ lp = 5 + 0 + 0.
Proof.
  split; [reflexivity |]. split; [reflexivity |].
  eexists. split; reflexivity.
Qed.

End Examples.

End Mixture.

(* ================================================================== *)
(** * [stream_ml/pytorch/background/base.py] *)

Module Background.

Section Unpack.
Variable A : Type.

(** A tensor of one or of two dimensions. *)
Inductive Tensor : Type :=
| Tensor1 (v : list A)
| Tensor2 (a : Array A).

(** What a parameter dictionary stores under a top-level name: a value, or
    the values of a group by sub-name. *)
Inductive PEntry : Type :=
| PLeaf (value : Tensor)
| PGroup (d : Dict.t string Tensor).

(** The working dictionary [pars], and the frozen [Params] made from it. *)
Definition MutableParams : Type := Dict.t string PEntry.
Definition FrozenParams : Type := Dict.t string PEntry.

(** Modelled from the spec: [stream_ml.core.params.set_param] is not among
    the sources.  The parameter dictionary has the shape of a [ParamBounds]:
    a string or 1-tuple key names a top-level value, a 2-tuple key names a
    value inside a group, which is created when absent.  A group cannot be
    entered where a plain value is stored. *)
Definition set_param (m : MutableParams) (key : Bounds.Key) (value : Tensor)
  : result MutableParams :=
  match key with
  | Bounds.KeyStr s => Ok (Dict.set m s (PLeaf value))
  | Bounds.KeyTuple [s] => Ok (Dict.set m s (PLeaf value))
  | Bounds.KeyTuple [g; s] =>
      match Dict.get m g with
      | None => Ok (Dict.set m g (PGroup [(s, value)]))
      | Some (PGroup d) => Ok (Dict.set m g (PGroup (Dict.set d s value)))
      | Some (PLeaf _) => Raise TypeError
      end
  | Bounds.KeyTuple _ => Raise ValueError
  end.

(** Modelled from the spec: [freeze_params] turns the working dictionary
    into its immutable form, entry for entry. *)
Definition freeze_params (m : MutableParams) : FrozenParams := m.

(** Modelled from the spec: [Params.__getitem__] on a flat name, addressed
    as a [ParamBounds] is. *)
Definition flat_get (p : FrozenParams) (k : FlatParamName) : option Tensor :=
  match k with
  | [s] =>
      match Dict.get p s with
      | Some (PLeaf value) => Some value
      | _ => None
      end
  | [g; s] =>
      match Dict.get p g with
      | Some (PGroup d) => Dict.get d s
      | _ => None
      end
  | _ => None
  end.

(** The model's declared names. *)
Record BackgroundModel : Type := mkBackground {
  param_names : ParamNames
}.

(** [n != ("weight",)] *)
Definition not_weight (n : FlatParamName) : bool :=
  if list_eq_dec string_dec n ["weight"%string] then false else true.

(** [enumerate(xs)] *)
Definition enumerate {X : Type} (xs : list X) : list (nat * X) :=
  combine (seq 0 (List.length xs)) xs.

(** The flat names the loop of [unpack_params_from_arr] runs over. *)
Definition unpacked_names (self : BackgroundModel) : list FlatParamName :=
  filter not_weight (flats (param_names self)).

(** The flattened names other than [("weight",)], in the order of the
    declaration.  This is the reading of the names that the entries of the
    result are stated for; it is not used by the model of the code. *)
Definition names_other_than_weight (names : ParamNames) : list FlatParamName :=
  remove (list_eq_dec string_dec) ["weight"%string] (flats names).

(** [BackgroundModel.unpack_params_from_arr(p_arr)] *)
Definition unpack_params_from_arr (self : BackgroundModel) (p_arr : Array A)
  : result FrozenParams :=
  pars <- set_param [] (Bounds.KeyStr "weight"%string) (Tensor1 []) ;;
  pars <- for_each
            (fun pars ik =>
               set_param pars (Bounds.KeyTuple (snd ik))
                         (Tensor2 (column_slice p_arr (fst ik))))
            (enumerate (unpacked_names self)) pars ;;
  Ok (freeze_params pars).

(** ** Reading back what [set_param] stored *)

Ltac split_get :=
  repeat match goal with
         | |- context [Dict.get (Dict.set ?d ?k ?v) ?k] =>
             rewrite (Dict.get_set_same d k v)
         | N : ?k <> ?k' |- context [Dict.get (Dict.set ?d ?k ?v) ?k'] =>
             rewrite (Dict.get_set_other d v N)
         end.

Lemma set_param_succeeds (m : MutableParams) (k : FlatParamName) (v : Tensor) :
  List.length k = 1 \/ List.length k = 2 ->
  (forall g s, k = [g; s] -> flat_get m [g] = None) ->
  succeeds (set_param m (Bounds.KeyTuple k) v).
Proof.
  unfold succeeds. destruct k as [| a [| b [| c r]]]; simpl; intros [L | L] F;
    try discriminate; eauto.
  specialize (F a b eq_refl).
  destruct (Dict.get m a) as [[t | d] |]; eauto. discriminate.
Qed.

Lemma set_param_same (m m' : MutableParams) (k : FlatParamName) (v : Tensor) :
  set_param m (Bounds.KeyTuple k) v = Ok m' -> flat_get m' k = Some v.
Proof.
  destruct k as [| a [| b [| c r]]]; simpl; intro E; try discriminate.
  - injection E as <-. now split_get.
  - destruct (Dict.get m a) as [[t | d] |]; try discriminate;
      injection E as <-; split_get; simpl; rewrite ?String.eqb_refl;
      reflexivity.
Qed.

Lemma set_param_other (m m' : MutableParams) (k k' : FlatParamName) (v : Tensor) :
  set_param m (Bounds.KeyTuple k) v = Ok m' ->
  k' <> k ->
  (forall g s, k = [g] -> k' <> [g; s]) ->
  flat_get m' k' = flat_get m k'.
Proof.
  destruct k as [| a [| b [| c r]]]; simpl; intros E NE NO; try discriminate.
  - injection E as <-.
    destruct k' as [| a' [| b' [| c' r']]]; simpl; trivial.
    + destruct (string_dec a a') as [-> | N]; [congruence | now split_get].
    + destruct (string_dec a a') as [-> | N]; [| now split_get].
      exfalso. now apply (NO a' b').
  - destruct k' as [| a' [| b' [| c' r']]]; simpl; trivial.
    + destruct (string_dec a a') as [-> | N].
      * destruct (Dict.get m a') as [[t | d] |]; try discriminate;
          injection E as <-; now split_get.
      * destruct (Dict.get m a) as [[t | d] |]; try discriminate;
          injection E as <-; now split_get.
    + destruct (string_dec a a') as [-> | N].
      * assert (Nb : b <> b') by congruence.
        destruct (Dict.get m a') as [[t | d] |]; try discriminate;
          injection E as <-; split_get; simpl;
          rewrite ?(proj2 (String.eqb_neq b b') Nb); reflexivity.
      * destruct (Dict.get m a) as [[t | d] |]; try discriminate;
          injection E as <-; now split_get.
Qed.

Lemma set_param_origin (m m' : MutableParams) (k k' : FlatParamName) (v v' : Tensor) :
  set_param m (Bounds.KeyTuple k) v = Ok m' ->
  flat_get m' k' = Some v' ->
  k' = k \/ flat_get m k' = Some v'.
Proof.
  intros E G.
  destruct (list_eq_dec string_dec k' k) as [-> | NE]; [now left | right].
  rewrite <- G. symmetry. apply (@set_param_other m m' k k' v E NE).
  intros g s -> ->. simpl in E. injection E as <-.
  simpl in G. rewrite Dict.get_set_same in G. discriminate.
Qed.

(** ** The loop *)

Definition store (m : MutableParams) (kv : FlatParamName * Tensor)
  : result MutableParams :=
  set_param m (Bounds.KeyTuple (fst kv)) (snd kv).

Lemma store_all (kvs : list (FlatParamName * Tensor)) :
  forall m,
    NoDup (map fst kvs) ->
    (forall k, In k (map fst kvs) -> List.length k = 1 \/ List.length k = 2) ->
    (forall g s, In [g; s] (map fst kvs) ->
                 ~ In [g] (map fst kvs) /\ flat_get m [g] = None) ->
    exists m',
      for_each store kvs m = Ok m'
      /\ (forall k v, In (k, v) kvs -> flat_get m' k = Some v)
      /\ (forall k', ~ In k' (map fst kvs) ->
                     (forall g s, k' = [g; s] -> ~ In [g] (map fst kvs)) ->
                     flat_get m' k' = flat_get m k')
      /\ (forall k' v', flat_get m' k' = Some v' ->
                        In k' (map fst kvs) \/ flat_get m k' = Some v').
Proof.
  induction kvs as [| [k0 v0] kvs IH]; intros m N W G.
  - exists m. simpl. repeat split; auto. intros k v [].
  - simpl in N, W, G. inversion N as [| ? ? X N']; subst.
    destruct (@set_param_succeeds m k0 v0) as [m1 E1].
    { apply W. now left. }
    { intros g s ->. apply (G g s). now left. }
    assert (O1 : forall k', k' <> k0 ->
                   (forall g s, k' = [g; s] -> k0 <> [g]) ->
                   flat_get m1 k' = flat_get m k').
    { intros k' NE NO. apply (@set_param_other m m1 k0 k' v0 E1 NE).
      intros g s -> ->. now apply (NO g s). }
    destruct (IH m1) as [m' [E' [Same [Other Origin]]]]; trivial.
    { intros k I. apply W. now right. }
    { intros g s I. destruct (G g s (or_intror I)) as [NI Z]. split.
      - intro J. apply NI. now right.
      - rewrite O1; trivial.
        + intros <-. apply NI. now left.
        + discriminate. }
    exists m'. split.
    { cbn [for_each]. unfold store at 1. cbn [fst snd]. rewrite E1. exact E'. }
    cbn [map fst]. split; [| split].
    + intros k v [I | I].
      * injection I as -> ->. rewrite Other.
        -- now apply (@set_param_same m m1).
        -- exact X.
        -- intros g s -> J. destruct (G g s (or_introl eq_refl)) as [NI _].
           apply NI. now right.
      * now apply Same.
    + intros k' NI NO. rewrite Other.
      * apply O1.
        -- intros ->. apply NI. now left.
        -- intros g s -> ->. apply (NO g s eq_refl). now left.
      * intro J. apply NI. now right.
      * intros g s -> J. apply (NO g s eq_refl). now right.
    + intros k' v' F. destruct (Origin k' v' F) as [I | F1].
      * left. now right.
      * destruct (@set_param_origin m m1 k0 k' v0 v' E1 F1) as [-> | F0];
          [left; now left | now right].
Qed.

Lemma for_each_map {X Y St : Type} (h : X -> Y) (body : St -> Y -> result St)
  (xs : list X) :
  forall acc,
    for_each body (map h xs) acc = for_each (fun a x => body a (h x)) xs acc.
Proof.
  induction xs as [| x xs IH]; intro acc; simpl; [reflexivity |].
  destruct (body acc (h x)); simpl; [apply IH | reflexivity].
Qed.

Lemma enumerate_nth {X : Type} (xs : list X) (i : nat) (x : X) :
  nth_error xs i = Some x <-> In (i, x) (enumerate xs).
Proof.
  unfold enumerate.
  assert (G : forall start j,
             nth_error xs j = Some x
             <-> In (start + j, x) (combine (seq start (List.length xs)) xs)).
  { induction xs as [| y xs IH]; intros start j; simpl.
    - destruct j; simpl; split; intro F; try discriminate; contradiction.
    - destruct j as [| j]; simpl.
      + rewrite Nat.add_0_r. split.
        * intro E. injection E as ->. now left.
        * intros [E | I]; [now injection E as -> |].
          apply in_combine_l in I. apply in_seq in I. lia.
      + rewrite (IH (S start) j). replace (start + S j) with (S start + j) by lia.
        split; [now right |]. intros [E | I]; [| exact I].
        injection E as E _. lia. }
  apply (G 0 i).
Qed.

Lemma enumerate_keys {X : Type} (xs : list X) : map snd (enumerate xs) = xs.
Proof.
  unfold enumerate. generalize 0.
  induction xs as [| x xs IH]; intro start; simpl; [reflexivity |].
  now rewrite IH.
Qed.

Lemma single_leaf_get (w g : string) (t : Tensor) :
  flat_get [(w, PLeaf t)] [g] = if String.eqb w g then Some t else None.
Proof. simpl. destruct (String.eqb w g); reflexivity. Qed.

Lemma single_leaf_origin (w : string) (t v : Tensor) (k : FlatParamName) :
  flat_get [(w, PLeaf t)] k = Some v -> k = [w].
Proof.
  destruct k as [| a [| b [| c r]]]; simpl; try discriminate.
  - destruct (String.eqb w a) eqn:W; [| discriminate].
    apply String.eqb_eq in W. now subst.
  - destruct (String.eqb w a); discriminate.
Qed.

(** The loop runs over the flattened names other than [("weight",)]. *)
Lemma unpacked_names_other (self : BackgroundModel) :
  unpacked_names self = names_other_than_weight (param_names self).
Proof.
  unfold unpacked_names, names_other_than_weight.
  induction (flats (param_names self)) as [| k l IH]; [reflexivity |].
  cbn [filter remove]. unfold not_weight at 1.
  destruct (list_eq_dec string_dec k ["weight"%string]) as [E | NE];
    destruct (list_eq_dec string_dec ["weight"%string] k) as [E' | NE'];
    try congruence.
  now rewrite IH.
Qed.

(** What the loop leaves in the dictionary, by the position of a name in the
    loop. *)
Lemma unpack_lookup (self : BackgroundModel) (p_arr : Array A) :
  distinct_names (param_names self) ->
  (forall subs, ~ In (Grouped "weight"%string subs) (param_names self)) ->
  exists P,
    unpack_params_from_arr self p_arr = Ok P
    /\ flat_get P ["weight"%string] = Some (Tensor1 [])
    /\ (forall i k,
          nth_error (unpacked_names self) i = Some k ->
          flat_get P k = Some (Tensor2 (column_slice p_arr i)))
    /\ (forall k v,
          flat_get P k = Some v ->
          k = ["weight"%string] \/ In k (unpacked_names self)).
Proof.
  intros D NG.
  set (h := fun ik : nat * FlatParamName =>
              (snd ik, Tensor2 (column_slice p_arr (fst ik)))).
  set (m0 := [("weight"%string, PLeaf (Tensor1 []))] : MutableParams).
  assert (K : map fst (map h (enumerate (unpacked_names self)))
              = unpacked_names self).
  { rewrite map_map. simpl. apply enumerate_keys. }
  destruct (@store_all (map h (enumerate (unpacked_names self))) m0)
    as [P [E [Same [Other Origin]]]].
  - rewrite K. unfold unpacked_names. apply NoDup_filter.
    now apply flats_distinct.
  - rewrite K. intros k I. apply filter_In in I.
    apply (flats_shape (param_names self)). apply I.
  - rewrite K. intros g s I. apply filter_In in I. destruct I as [I _].
    destruct (flats_group _ _ _ I) as [subs G]. split.
    + intro J. apply filter_In in J. destruct J as [J _].
      apply flats_leaf in J.
      assert (X : Flat g = Grouped g subs).
      { apply (top_determines (param_names self)); trivial. apply D. }
      discriminate.
    + unfold m0. rewrite single_leaf_get.
      destruct (String.eqb "weight" g) eqn:W; [| reflexivity].
      apply String.eqb_eq in W. subst g. exfalso. now apply (NG subs).
  - rewrite for_each_map in E.
    exists P. split; [| split; [| split]].
    + assert (E2 : for_each
                     (fun pars ik =>
                        set_param pars (Bounds.KeyTuple (snd ik))
                                  (Tensor2 (column_slice p_arr (fst ik))))
                     (enumerate (unpacked_names self)) m0 = Ok P) by exact E.
      unfold unpack_params_from_arr.
      replace (set_param [] (Bounds.KeyStr "weight"%string) (Tensor1 []))
        with (Ok m0) by reflexivity.
      unfold Py.bind at 1. rewrite E2. reflexivity.
    + rewrite Other.
      * reflexivity.
      * rewrite K. intro I. apply filter_In in I. destruct I as [_ I].
        discriminate.
      * discriminate.
    + intros i k N. apply Same. apply enumerate_nth in N.
      change (In (h (i, k)) (map h (enumerate (unpacked_names self)))).
      now apply in_map.
    + intros k v F. destruct (Origin k v F) as [I | F0].
      * right. now rewrite K in I.
      * left. unfold m0 in F0. now apply single_leaf_origin in F0.
Qed.

(** Row [r] of the slice [a[:, i : i + 1]] holds entry [i] of row [r] of [a],
    and nothing when that row has no such entry. *)
Lemma column_slice_row (a : Array A) (i r : nat) (row : list A) :
  nth_error a r = Some row ->
  nth_error (column_slice a i) r
  = Some (match nth_error row i with
          | Some x => [x]
          | None => []
          end).
Proof.
  intro N. unfold column_slice. rewrite nth_error_map, N.
  cbn [option_map]. f_equal.
  clear. revert row.
  induction i as [| i IH]; intros [| x row]; cbn [skipn nth_error]; trivial.
Qed.

(** C7. For a background model whose declared names have pairwise different
    top-level keys and sub-names, and in which ["weight"] does not name a
    group, [unpack_params_from_arr(p_arr)] returns a frozen [Params] whose
    [("weight",)] entry is the zero-length array, whatever [p_arr] is, whose
    entry for the [i]-th flattened name other than [("weight",)] is the
    column [p_arr[:, i : i + 1]], one row per row of [p_arr] holding that
    row's entry [i], and which has no entry but these. *)
Theorem unpack_params_from_arr_entries (self : BackgroundModel) (p_arr : Array A) :
  distinct_names (param_names self) ->
  (forall subs, ~ In (Grouped "weight"%string subs) (param_names self)) ->
  exists P,
    unpack_params_from_arr self p_arr = Ok P
    /\ flat_get P ["weight"%string] = Some (Tensor1 [])
    /\ (forall i k,
          nth_error (names_other_than_weight (param_names self)) i = Some k ->
          exists col,
            flat_get P k = Some (Tensor2 col)
            /\ col = column_slice p_arr i
            /\ List.length col = List.length p_arr
            /\ forall r row,
                 nth_error p_arr r = Some row ->
                 nth_error col r = Some (match nth_error row i with
                                         | Some x => [x]
                                         | None => []
                                         end))
    /\ (forall k v,
          flat_get P k = Some v ->
          k = ["weight"%string]
          \/ (In k (flats (param_names self)) /\ k <> ["weight"%string])).
Proof.
  intros D NG.
  destruct (@unpack_lookup self p_arr D NG) as [P [E [W [Cols Only]]]].
  exists P. split; [exact E |]. split; [exact W |]. split.
  - intros i k N. exists (column_slice p_arr i).
    split; [apply Cols; now rewrite unpacked_names_other |].
    split; [reflexivity |].
    split; [unfold column_slice; now rewrite length_map |].
    intros r row Nr. now apply column_slice_row.
  - intros k v F. destruct (Only k v F) as [K | I]; [now left | right].
    rewrite unpacked_names_other in I. unfold names_other_than_weight in I.
    apply in_remove in I. exact I.
Qed.

End Unpack.

Section Examples.
Local Open Scope string_scope.

(** C7 on a model with the names [("weight", ("phi2", ("mu", "sigma")))]. *)
Lemma unpack_params_from_arr_entries_witness :
  exists P,
    unpack_params_from_arr
      (mkBackground [Flat "weight"; Grouped "phi2" ["mu"; "sigma"]])
      [[1; 2]; [3; 4]] = Ok P
    /\ flat_get P ["weight"] = Some (Tensor1 [])
    /\ (forall i k,
          nth_error (names_other_than_weight
                       [Flat "weight"; Grouped "phi2" ["mu"; "sigma"]])
                    i = Some k ->
          exists col,
            flat_get P k = Some (Tensor2 col)
            /\ col = column_slice [[1; 2]; [3; 4]] i
            /\ List.length col = List.length [[1; 2]; [3; 4]]
            /\ forall r row,
                 nth_error [[1; 2]; [3; 4]] r = Some row ->
                 nth_error col r = Some (match nth_error row i with
                                         | Some x => [x]
                                         | None => []
                                         end))
    /\ (forall k v,
          flat_get P k = Some v ->
          k = ["weight"]
          \/ (In k (flats [Flat "weight"; Grouped "phi2" ["mu"; "sigma"]])
              /\ k <> ["weight"])).
Proof.
  apply (@unpack_params_from_arr_entries nat
           (mkBackground [Flat "weight"; Grouped "phi2" ["mu"; "sigma"]])
           [[1; 2]; [3; 4]]).
  - split.
    + simpl. repeat constructor; simpl; intuition discriminate.
    + repeat constructor; simpl; intuition discriminate.
  - intros subs [I | [I | []]]; discriminate.
Defined.

Example unpack_two_columns :
  unpack_params_from_arr
    (mkBackground [Flat "weight"; Grouped "phi2" ["mu"; "sigma"]])
    [[1; 2]; [3; 4]]
  = Ok [("weight", PLeaf (Tensor1 []));
        ("phi2", PGroup [("mu", Tensor2 [[1]; [3]]);
                         ("sigma", Tensor2 [[2]; [4]])])].
Proof. reflexivity. Qed.

(** C7 as stated fails for declared names that share a top-level key: the
    flattened names other than [("weight",)] are [("a", "x")] and [("a",)],
    and the value stored for [("a",)] replaces the group that held the first
    column, so that [("a", "x")] has no entry. *)
Lemma unpack_shared_key_counterexample :
  names_other_than_weight [Grouped "a" ["x"]; Flat "a"] = [["a"; "x"]; ["a"]]
  /\ unpack_params_from_arr (mkBackground [Grouped "a" ["x"]; Flat "a"])
                            [[1; 2]; [3; 4]]
     = Ok [("weight", PLeaf (Tensor1 [])); ("a", PLeaf (Tensor2 [[2]; [4]]))]
  /\ flat_get [("weight", PLeaf (Tensor1 [])); ("a", PLeaf (Tensor2 [[2]; [4]]))]
              ["a"; "x"]
     = None
  /\ column_slice [[1; 2]; [3; 4]] 0 = [[1]; [3]].
Proof. repeat split. Qed.

End Examples.

End Background.

(* ================================================================== *)
(** * [stream_ml/pytorch/prior/weight.py] *)

Module Weight.

(** The dataclass fields, with defaults [0.005], ["phi1"], [-inf], [inf]. *)
Record BoundedHardThreshold : Type := mkThreshold {
  threshold : float;
  coord_name : string;
  lower : float;
  upper : float
}.

#[warnings="-inexact-float"]
Definition default_threshold : BoundedHardThreshold :=
  mkThreshold 0.005%float "phi1"%string neg_infinity infinity.

(** The flattened, joined names [model.param_names.flat] of a model. *)
Record Model : Type := mkModel {
  flat : list string
}.

(** Tensors live in a store and are addressed by reference, so that a clone
    and its source are different objects. *)
Definition Ref : Type := nat.
Definition Heap : Type := list (Array float).

Definition heap_read (h : Heap) (r : Ref) : option (Array float) := nth_error h r.

(** A new object, placed after the existing ones. *)
Definition heap_alloc (h : Heap) (a : Array float) : Heap * Ref :=
  (h ++ [a], List.length h).

Fixpoint heap_write (h : Heap) (r : Ref) (a : Array float) : Heap :=
  match h, r with
  | [], _ => []
  | _ :: rest, 0 => a :: rest
  | x :: rest, S r' => x :: heap_write rest r' a
  end.

(** [names.index(x)] on a tuple: [ValueError] when absent. *)
Definition tuple_find (l : list string) (x : string) : result nat :=
  match index_of l x with
  | Some i => Ok i
  | None => Raise ValueError
  end.

(** Modelled from the spec: [data[name][:, 0]] is the column called [name]
    of a named container, as a one-dimensional array. *)
Definition Data_column (d : Data float) (name : string) : result (list float) :=
  match index_of (names d) name with
  | None => Raise KeyError
  | Some i =>
      traverse
        (fun row => match nth_error row i with
                    | Some x => Ok x
                    | None => Raise IndexError
                    end)
        (array d)
  end.

(** Modelled from the spec: [stream_ml.pytorch.utils.misc.within_bounds] is
    not among the sources; a value is within the bounds when it lies in the
    closed interval from [lower] to [upper]. *)
Definition within_bounds (x lo hi : float) : bool :=
  PrimFloat.leb lo x && PrimFloat.leb x hi.

(** ** Tensor dtypes *)

(** The floating-point dtype of a tensor.  The entries of a tensor of either
    dtype are written as binary64 floats, which hold every binary32 value
    exactly and compare as the values do in their dtype. *)
Inductive Dtype : Type :=
| float32
| float64.

(** The largest finite binary32 value, [(2 - 2^-23) * 2^127]. *)
Definition float32_max : float := 0x1.fffffep+127%float.

(** A binary64 rounded to the nearest binary32, ties to even; past the
    binary32 range the result is an infinity. *)
Definition round_float32 (x : float) : float :=
  match Prim2SF x with
  | S754_finite s m e => SF2Prim (binary_round 24 128 s m e)
  | _ => x
  end.

(** A Python float as the other operand of a comparison with a tensor of
    dtype [d]: the comparison is made in the dtype of the tensor, to which
    the float is converted. *)
Definition as_dtype (d : Dtype) (x : float) : float :=
  match d with
  | float64 => x
  | float32 => round_float32 x
  end.

(** A Python number as a scalar argument of an operator on a tensor of dtype
    [d]: the conversion is checked, and a finite value beyond the range of
    the dtype is a [RuntimeError]. *)
Definition scalar_to (d : Dtype) (x : float) : result float :=
  match d with
  | float64 => Ok x
  | float32 =>
      if PrimFloat.ltb float32_max (PrimFloat.abs x)
         && negb (PrimFloat.is_infinity x)
      then Raise RuntimeError
      else Ok (round_float32 x)
  end.

(** [torch.threshold(input, threshold, value)], entry by entry, with the two
    scalars converted to the dtype of [input]: an entry is replaced by
    [value] when it is less than or equal to [threshold], and kept
    otherwise; a NaN entry is therefore kept. *)
Definition torch_threshold (x t value : float) : float :=
  if PrimFloat.leb x t then value else x.

(** [a[mask, col]]: the entries of column [col] in the rows the mask
    selects. *)
Fixpoint masked_get (a : Array float) (mask : list bool) (col : nat)
  : result (list float) :=
  match a, mask with
  | [], [] => Ok []
  | row :: a', w :: mask' =>
      match nth_error row col with
      | None => Raise IndexError
      | Some x =>
          rest <- masked_get a' mask' col ;;
          Ok (if w then x :: rest else rest)
      end
  | _, _ => Raise IndexError
  end.

(** [row[col] = v] *)
Fixpoint set_nth (row : list float) (col : nat) (v : float) : list float :=
  match row, col with
  | [], _ => []
  | _ :: rest, 0 => v :: rest
  | x :: rest, S col' => x :: set_nth rest col' v
  end.

(** [a[mask, col] = values]: the selected rows take the values in order. *)
Fixpoint masked_set (a : Array float) (mask : list bool) (col : nat)
  (values : list float) : result (Array float) :=
  match a, mask with
  | [], [] =>
      match values with
      | [] => Ok []
      | _ :: _ => Raise ValueError
      end
  | row :: a', true :: mask' =>
      match values with
      | [] => Raise ValueError
      | v :: values' =>
          rest <- masked_set a' mask' col values' ;;
          Ok (set_nth row col v :: rest)
      end
  | row :: a', false :: mask' =>
      rest <- masked_set a' mask' col values ;;
      Ok (row :: rest)
  | _, _ => Raise IndexError
  end.

Definition zero : float := 0%float.

(** [BoundedHardThreshold.__call__(nn, data, model)]; [nn] is a reference
    into the store, and so is the result; [dtype] is the dtype of the tensor
    [nn]. *)
Definition call (self : BoundedHardThreshold) (dtype : Dtype) (h : Heap)
  (nn : Ref) (data : Data float) (model : Model) : result (Heap * Ref) :=
  im1 <- tuple_find (flat model) "weight"%string ;;
  column <- Data_column data (coord_name self) ;;
  let where_ := map (fun x => within_bounds x (lower self) (upper self)) column in
  match heap_read h nn with
  | None => Raise ValueError
  | Some source =>
      let (h1, out) := heap_alloc h source in
      selected <- masked_get source where_ im1 ;;
      t <- scalar_to dtype (threshold self) ;;
      value <- scalar_to dtype zero ;;
      let values := map (fun x => torch_threshold x t value) selected in
      match heap_read h1 out with
      | None => Raise ValueError
      | Some target =>
          updated <- masked_set target where_ im1 values ;;
          Ok (heap_write h1 out updated, out)
      end
  end.

(** The entry in row [i] and column [j]. *)
Definition entry (a : Array float) (i j : nat) : option float :=
  match nth_error a i with
  | Some row => nth_error row j
  | None => None
  end.

(** ** The store *)

Lemma heap_alloc_read (h : Heap) (a : Array float) :
  heap_read (fst (heap_alloc h a)) (snd (heap_alloc h a)) = Some a.
Proof.
  unfold heap_read, heap_alloc. simpl.
  rewrite nth_error_app2 by lia. now rewrite Nat.sub_diag.
Qed.

Lemma heap_write_last (h : Heap) (a b : Array float) :
  heap_write (h ++ [a]) (List.length h) b = h ++ [b].
Proof.
  induction h as [| x h IH]; simpl; [reflexivity | now rewrite IH].
Qed.

Lemma heap_old_objects (h : Heap) (b : Array float) (r : Ref) :
  r < List.length h -> heap_read (h ++ [b]) r = heap_read h r.
Proof.
  intro L. unfold heap_read. now rewrite nth_error_app1.
Qed.

(** ** Masked assignment, row by row *)

(** What [out[where, col] = f(nn[where, col])] leaves in one row. *)
Definition update_row (f : float -> float) (col : nat) (row : list float)
  (w : bool) : list float :=
  if w then
    match nth_error row col with
    | Some x => set_nth row col (f x)
    | None => row
    end
  else row.

Fixpoint update_rows (f : float -> float) (col : nat) (a : Array float)
  (mask : list bool) : Array float :=
  match a, mask with
  | row :: a', w :: mask' => update_row f col row w :: update_rows f col a' mask'
  | _, _ => []
  end.

Lemma masked_update (f : float -> float) (col : nat) (a : Array float) :
  forall mask,
    List.length mask = List.length a ->
    Forall (fun row => col < List.length row) a ->
    exists selected,
      masked_get a mask col = Ok selected
      /\ masked_set a mask col (map f selected) = Ok (update_rows f col a mask).
Proof.
  induction a as [| row a IH]; intros [| w mask] L F; try discriminate.
  - exists []. auto.
  - inversion F as [| ? ? Lr F']; subst. simpl in L.
    destruct (IH mask) as [sel [G S]]; [lia | exact F' |].
    destruct (nth_error row col) as [x |] eqn:N.
    + simpl. rewrite N, G. simpl. unfold update_row. rewrite N.
      destruct w.
      * exists (x :: sel). simpl. rewrite S. auto.
      * exists sel. rewrite S. auto.
    + apply nth_error_None in N. lia.
Qed.

Lemma set_nth_read (row : list float) (col j : nat) (v : float) :
  col < List.length row ->
  nth_error (set_nth row col v) j
  = if Nat.eqb j col then Some v else nth_error row j.
Proof.
  revert col j. induction row as [| x row IH]; intros col j L; simpl in L.
  - lia.
  - destruct col as [| col]; destruct j as [| j]; simpl; trivial.
    apply IH. lia.
Qed.

Lemma update_rows_length (f : float -> float) (col : nat) (a : Array float) :
  forall mask,
    List.length mask = List.length a ->
    List.length (update_rows f col a mask) = List.length a.
Proof.
  induction a as [| row a IH]; intros [| w mask] L; try discriminate; simpl.
  - reflexivity.
  - f_equal. apply IH. simpl in L. lia.
Qed.


(** Zero is a value of every dtype. *)
Lemma scalar_to_zero (dtype : Dtype) : scalar_to dtype zero = Ok zero.
Proof. destruct dtype; reflexivity. Qed.

(** A scalar argument that converts is the float as the dtype holds it. *)
Lemma scalar_to_as_dtype (dtype : Dtype) (x t : float) :
  scalar_to dtype x = Ok t -> t = as_dtype dtype x.
Proof.
  destruct dtype; simpl.
  - destruct (PrimFloat.ltb float32_max (PrimFloat.abs x)
              && negb (PrimFloat.is_infinity x)); [discriminate |].
    now intros [= <-].
  - now intros [= <-].
Qed.


Section Examples.
Local Open Scope string_scope.
Local Open Scope float_scope.
Local Set Warnings "-inexact-float".


Example call_two_rows :
  call default_threshold float64 [[[0.5; 0.001]; [0.001; 0.25]]] 0%nat
       (mkData [[1]; [2]] ["phi1"]) (mkModel ["weight"; "phi2_mu"])
  = Ok ([[[0.5; 0.001]; [0.001; 0.25]]; [[0.5; 0.001]; [0; 0.25]]], 1%nat).
Proof. reflexivity. Qed.


(** A NaN weight is kept, and so is every weight under a NaN threshold. *)
Example call_keeps_nan_weight :
  call default_threshold float64 [[[nan]]] 0%nat
       (mkData [[1]] ["phi1"]) (mkModel ["weight"])
  = Ok ([[[nan]]; [[nan]]], 1%nat)
  /\ call (mkThreshold nan "phi1" neg_infinity infinity) float64 [[[0.001]]] 0%nat
          (mkData [[1]] ["phi1"]) (mkModel ["weight"])
     = Ok ([[[0.001]]; [[0.001]]], 1%nat).
Proof. split; reflexivity. Qed.

(** The comparison is made in the dtype of the tensor.  The binary32 nearest
    to [0.1] is greater than the binary64 [0.1]; in a binary32 tensor it is
    equal to the converted threshold and is replaced, in a binary64 tensor it
    is above the threshold and kept. *)
Example call_threshold_in_dtype :
  round_float32 0.1 = 0.10000000149011612
  /\ PrimFloat.ltb 0.1 0.10000000149011612 = true
  /\ call (mkThreshold 0.1 "phi1" neg_infinity infinity) float32
          [[[0.10000000149011612]]] 0%nat
          (mkData [[1]] ["phi1"]) (mkModel ["weight"])
     = Ok ([[[0.10000000149011612]]; [[0]]], 1%nat)
  /\ call (mkThreshold 0.1 "phi1" neg_infinity infinity) float64
          [[[0.10000000149011612]]] 0%nat
          (mkData [[1]] ["phi1"]) (mkModel ["weight"])
     = Ok ([[[0.10000000149011612]]; [[0.10000000149011612]]], 1%nat).
Proof. repeat split; reflexivity. Qed.

(** A finite threshold beyond the binary32 range does not convert. *)
Example call_threshold_out_of_range :
  call (mkThreshold 1e39 "phi1" neg_infinity infinity) float32 [[[0.5]]] 0%nat
       (mkData [[1]] ["phi1"]) (mkModel ["weight"])
  = Raise RuntimeError
  /\ scalar_to float32 infinity = Ok infinity.
Proof. split; reflexivity. Qed.

End Examples.

End Weight.

(* ================================================================== *)
(** * More on dictionaries: keys stay unique *)

Module DictLaws.

Section Laws.
Context {K V : Type} `{EqKey K}.

Lemma keys_set (d : Dict.t K V) (k : K) (v : V) :
  Dict.keys (Dict.set d k v)
  = if Dict.contains d k then Dict.keys d else Dict.keys d ++ [k].
Proof.
  unfold Dict.contains. induction d as [| [k' v'] d IH]; simpl.
  - reflexivity.
  - destruct (keqb k' k) eqn:E; simpl; [reflexivity |].
    rewrite IH. now destruct (Dict.get d k).
Qed.

Lemma contains_In (d : Dict.t K V) (k : K) :
  Dict.contains d k = true <-> In k (Dict.keys d).
Proof.
  unfold Dict.contains. induction d as [| [k' v'] d IH]; simpl.
  - split; [discriminate | tauto].
  - destruct (keqb k' k) eqn:E.
    + apply keqb_eq in E. subst. tauto.
    + rewrite IH. split; [tauto |]. intros [-> | I]; [| exact I].
      rewrite Dict.keqb_refl in E. discriminate.
Qed.

Lemma NoDup_keys_set (d : Dict.t K V) (k : K) (v : V) :
  NoDup (Dict.keys d) -> NoDup (Dict.keys (Dict.set d k v)).
Proof.
  intro N. rewrite keys_set. destruct (Dict.contains d k) eqn:C; [exact N |].
  apply NoDup_app; trivial.
  - repeat constructor. tauto.
  - intros a I [<- | []]. apply contains_In in I. congruence.
Qed.

Lemma NoDup_keys_update (items : list (K * V)) :
  forall d, NoDup (Dict.keys d) -> NoDup (Dict.keys (Dict.update d items)).
Proof.
  unfold Dict.update.
  induction items as [| [k v] items IH]; intros d N; simpl; [exact N |].
  apply IH. now apply NoDup_keys_set.
Qed.

Lemma NoDup_keys_of_items (items : list (K * V)) :
  NoDup (Dict.keys (Dict.of_items items)).
Proof. apply (NoDup_keys_update items []). constructor. Qed.

Lemma get_pair (d : Dict.t K V) (k : K) (v : V) :
  Dict.get d k = Some v -> In (k, v) d.
Proof.
  induction d as [| [k' v'] d IH]; simpl; [discriminate |].
  destruct (keqb k' k) eqn:E.
  - apply keqb_eq in E. subst. intro G. injection G as ->. now left.
  - intro G. right. now apply IH.
Qed.

Lemma get_In (d : Dict.t K V) (k : K) (v : V) :
  NoDup (Dict.keys d) -> In (k, v) d -> Dict.get d k = Some v.
Proof.
  induction d as [| [k' v'] d IH]; simpl; intros N I; [contradiction |].
  inversion N as [| ? ? X N']; subst. destruct I as [E | I].
  - injection E as -> ->. now rewrite Dict.keqb_refl.
  - destruct (keqb k' k) eqn:E.
    + apply keqb_eq in E. subst. exfalso. apply X.
      change k with (fst (k, v)). now apply in_map.
    + now apply IH.
Qed.

End Laws.

End DictLaws.

(* ================================================================== *)
(** * [ParamBounds]: constructed instances, lookup and the flat view *)

Module BoundsLaws.

Import Bounds.

(** A mapping as a Python dictionary holds it: one entry per top-level key
    and one entry per sub-key inside each group. *)
Definition unique_keys (P : ParamBounds) : Prop :=
  NoDup (Dict.keys P)
  /\ forall k d, In (k, Nested d) P -> NoDup (Dict.keys d).

Lemma init_step_unique (pb pb' : ParamBounds) (kv : PyKey * PyVal) :
  unique_keys pb -> init_step pb kv = Ok pb' -> unique_keys pb'.
Proof.
  intros [N G] E. unfold init_step in E.
  destruct kv as [[k | n] v]; simpl in E; [| discriminate].
  assert (W : forall e,
             (forall d, e = Nested d -> NoDup (Dict.keys d)) ->
             unique_keys (Dict.set pb k e)).
  { intros e We. split; [now apply DictLaws.NoDup_keys_set |].
    intros k' d I.
    assert (Gt : Dict.get (Dict.set pb k e) k' = Some (Nested d)).
    { apply DictLaws.get_In; [now apply DictLaws.NoDup_keys_set | exact I]. }
    destruct (string_dec k k') as [<- | NE].
    - rewrite Dict.get_set_same in Gt. injection Gt as ->. now apply We.
    - rewrite Dict.get_set_other in Gt by exact NE.
      apply DictLaws.get_pair in Gt. now apply (G k' d). }
  destruct v as [b | | items | r]; try discriminate; injection E as <-;
    apply W; intros d Ed; try discriminate.
  injection Ed as <-. apply DictLaws.NoDup_keys_of_items.
Qed.

Lemma init_loop_unique (items : list (PyKey * PyVal)) :
  forall pb pb',
    unique_keys pb -> for_each init_step items pb = Ok pb' -> unique_keys pb'.
Proof.
  induction items as [| kv items IH]; simpl; intros pb pb' U E.
  - now injection E as <-.
  - destruct (init_step pb kv) as [pb1 |] eqn:S; simpl in E; [| discriminate].
    apply (IH pb1 pb'); [| exact E]. now apply (@init_step_unique pb pb1 kv U S).
Qed.

(** What the constructor returns holds one entry per key. *)
Lemma init_unique (m : list (PyKey * PyVal)) (kwargs : list (string * PyVal))
  (P : ParamBounds) :
  init m kwargs = Ok P -> unique_keys P.
Proof.
  unfold init. apply init_loop_unique. split; [constructor |].
  intros k d [].
Qed.

(** ** Lookup by flat key and the flat view *)

Lemma flatitems_In (P : ParamBounds) (k : FlatParamName) (b : PriorBounds) :
  In (k, b) (flatitems P) <->
  (exists s, k = [s] /\ In (s, Leaf b) P)
  \/ (exists g s d, k = [g; s] /\ In (g, Nested d) P /\ In (s, b) d).
Proof.
  unfold flatitems. rewrite in_flat_map. split.
  - intros [[name e] [I J]]. destruct e as [b' | d]; simpl in J.
    + destruct J as [E | []]. injection E as <- <-. left. eauto.
    + apply in_map_iff in J. destruct J as [[s b'] [E J]]. simpl in E.
      injection E as <- <-. right. exists name, s, d. auto.
  - intros [[s [-> I]] | [g [s [d [-> [I J]]]]]].
    + exists (s, Leaf b). split; [exact I |]. simpl. now left.
    + exists (g, Nested d). split; [exact I |]. simpl.
      apply in_map_iff. exists (s, b). auto.
Qed.

(** X1. For a constructed [ParamBounds], the flat view and lookup by tuple
    agree: [(k, b)] is among [flatitems()] exactly when [k] is a 1-tuple or a
    2-tuple and [P[k]] returns [b]. *)
Theorem flatitems_iff_getitem (m : list (PyKey * PyVal))
  (kwargs : list (string * PyVal)) (P : ParamBounds)
  (k : FlatParamName) (b : PriorBounds) :
  init m kwargs = Ok P ->
  (In (k, b) (flatitems P)
   <-> (List.length k = 1 \/ List.length k = 2)
       /\ getitem P (KeyTuple k) = Ok (Leaf b)).
Proof.
  intro C. destruct (@init_unique m kwargs P C) as [N G].
  rewrite flatitems_In. split.
  - intros [[s [-> I]] | [g [s [d [-> [I J]]]]]].
    + split; [now left |]. simpl. unfold dict_getitem.
      now rewrite (DictLaws.get_In _ _ _ N I).
    + split; [now right |]. simpl. unfold dict_getitem.
      rewrite (DictLaws.get_In _ _ _ N I). simpl.
      now rewrite (DictLaws.get_In _ _ _ (G g d I) J).
  - intros [L E]. destruct k as [| a [| s [| c r]]]; simpl in L;
      try (destruct L; discriminate); simpl in E; unfold dict_getitem in E.
    + left. exists a. split; [reflexivity |].
      destruct (Dict.get P a) as [[b' | d] |] eqn:Ga; simpl in E;
        try discriminate.
      injection E as ->. now apply DictLaws.get_pair.
    + right. destruct (Dict.get P a) as [[b' | d] |] eqn:Ga; simpl in E;
        try discriminate.
      destruct (Dict.get d s) as [b' |] eqn:Gs; simpl in E; [| discriminate].
      injection E as ->. exists a, s, d.
      split; [reflexivity |]. split; now apply DictLaws.get_pair.
Qed.

Section LookupExample.
Local Open Scope string_scope.

Lemma flatitems_iff_getitem_witness :
  In (["phi2"; "mu"], no_bounds)
     (flatitems [("weight", Leaf no_bounds); ("phi2", Nested [("mu", no_bounds)])])
  <-> (List.length ["phi2"; "mu"] = 1 \/ List.length ["phi2"; "mu"] = 2)
      /\ getitem [("weight", Leaf no_bounds); ("phi2", Nested [("mu", no_bounds)])]
                 (KeyTuple ["phi2"; "mu"]) = Ok (Leaf no_bounds).
Proof.
  apply (@flatitems_iff_getitem
           [(KStr "weight", VNone); (KStr "phi2", VMapping [("mu", VNone)])] []).
  reflexivity.
Defined.

End LookupExample.

(** X2. Tuples of other lengths are not rejected as malformed: for the empty
    tuple both [P[()]] and [() in P] raise [IndexError], and a tuple of three
    or more names is looked up by its first two names alone. *)
Theorem getitem_other_tuple_lengths (P : ParamBounds) :
  getitem P (KeyTuple []) = Raise IndexError
  /\ contains P (KeyTuple []) = Raise IndexError
  /\ forall a b c rest,
       getitem P (KeyTuple (a :: b :: c :: rest)) = getitem P (KeyTuple [a; b])
       /\ contains P (KeyTuple (a :: b :: c :: rest))
          = contains P (KeyTuple [a; b]).
Proof.
  split; [reflexivity |]. split; [reflexivity |].
  intros a b c rest.
  assert (E : getitem P (KeyTuple (a :: b :: c :: rest))
              = getitem P (KeyTuple [a; b])) by reflexivity.
  split; [exact E |]. unfold contains. now rewrite E.
Qed.

(** ** Building a [ParamBounds] from a [ParamBounds] *)

(** A [ParamBounds] read as the mapping it is: its items, with the groups as
    mappings. *)
Definition as_mapping (P : ParamBounds) : list (PyKey * PyVal) :=
  map (fun ke =>
         (KStr (fst ke),
          match snd ke with
          | Leaf b => VPrior b
          | Nested d => VMapping (map (fun kb => (fst kb, VPrior (snd kb))) d)
          end))
      P.

Lemma as_mapping_keys (P : ParamBounds) :
  map fst (as_mapping P) = map KStr (Dict.keys P).
Proof. unfold as_mapping, Dict.keys. now rewrite !map_map. Qed.

Lemma init_step_entry (acc : ParamBounds) (k : string) (e : Entry) :
  ~ In k (Dict.keys acc) ->
  (forall d, e = Nested d -> NoDup (Dict.keys d)) ->
  init_step acc (KStr k,
                 match e with
                 | Leaf b => VPrior b
                 | Nested d => VMapping (map (fun kb => (fst kb, VPrior (snd kb))) d)
                 end)
  = Ok (acc ++ [(k, e)]).
Proof.
  intros F W. unfold init_step. destruct e as [b | d]; simpl.
  - now rewrite Dict.set_fresh.
  - rewrite map_map. simpl.
    assert (E : map (fun x : string * PriorBounds => (fst x, snd x)) d = d).
    { rewrite <- (map_id d) at 2. apply map_ext. now intros [a b]. }
    rewrite E, Dict.of_items_distinct by now apply W.
    now rewrite Dict.set_fresh.
Qed.

Lemma init_loop_mapping (Q : ParamBounds) :
  forall acc,
    NoDup (Dict.keys acc ++ Dict.keys Q) ->
    (forall k d, In (k, Nested d) Q -> NoDup (Dict.keys d)) ->
    for_each init_step (as_mapping Q) acc = Ok (acc ++ Q).
Proof.
  induction Q as [| [k e] Q IH]; intros acc N W; simpl.
  - now rewrite app_nil_r.
  - rewrite init_step_entry.
    + simpl. rewrite IH.
      * now rewrite <- app_assoc.
      * unfold Dict.keys in *. rewrite map_app, <- app_assoc. exact N.
      * intros k' d I. apply (W k' d). now right.
    + simpl in N. apply NoDup_remove_2 in N. intro I. apply N.
      apply in_or_app. now left.
    + intros d ->. apply (W k d). now left.
Qed.

Lemma init_as_mapping (P : ParamBounds) :
  unique_keys P -> init (as_mapping P) [] = Ok P.
Proof.
  intros [N W]. unfold init, literal_items. simpl.
  rewrite Dict.of_items_distinct.
  - now rewrite (init_loop_mapping P [] N W).
  - rewrite as_mapping_keys. now apply NoDup_map_KStr.
Qed.

(** X3. Constructing a [ParamBounds] from a constructed [ParamBounds] gives
    the same mapping back: [ParamBounds(P) == P]. *)
Theorem init_of_constructed (m : list (PyKey * PyVal))
  (kwargs : list (string * PyVal)) (P : ParamBounds) :
  init m kwargs = Ok P -> init (as_mapping P) [] = Ok P.
Proof.
  intro C. apply init_as_mapping. exact (@init_unique m kwargs P C).
Qed.

(** ** [_fixup_param_names] *)

(** The body of the loop of [_fixup_param_names]. *)
Definition fixup_step (new : Dict.t PyKey PyVal) (kv : string * Entry)
  : result (Dict.t PyKey PyVal) :=
  match snd kv with
  | Leaf v =>
      b <- replace_param_name v [fst kv] ;;
      Ok (Dict.set new (KStr (fst kv)) (VPrior b))
  | Nested v =>
      items <- traverse
                 (fun kkvv =>
                    b <- replace_param_name (snd kkvv) [fst kv; fst kkvv] ;;
                    Ok (fst kkvv, VPrior b))
                 v ;;
      Ok (Dict.set new (KStr (fst kv)) (VMapping (Dict.of_items items)))
  end.

(** [ParamBounds._fixup_param_names] *)
Definition _fixup_param_names (self : ParamBounds) : result ParamBounds :=
  new <- for_each fixup_step self [] ;;
  init new [].

(** One entry with every bound carrying its own flat key. *)
Definition fixed_entry (ke : string * Entry) : string * Entry :=
  (fst ke,
   match snd ke with
   | Leaf b => Leaf (stamp b [fst ke])
   | Nested d => Nested (map (fun kb => (fst kb, stamp (snd kb) [fst ke; fst kb])) d)
   end).

Definition all_constructed (P : ParamBounds) : Prop :=
  forall k b, In (k, b) (flatitems P) -> constructed b.

Lemma traverse_replace_group (g : string) (d : Dict.t string PriorBounds) :
  (forall s b, In (s, b) d -> constructed b) ->
  traverse (fun kkvv =>
              b <- replace_param_name (snd kkvv) [g; fst kkvv] ;;
              Ok (fst kkvv, VPrior b)) d
  = Ok (map (fun kb => (fst kb, VPrior (stamp (snd kb) [g; fst kb]))) d).
Proof.
  induction d as [| [s b] d IH]; intro C; simpl; [reflexivity |].
  rewrite replace_constructed by (apply (C s b); now left). simpl.
  rewrite IH; [reflexivity |]. intros s' b' I. apply (C s' b'). now right.
Qed.

Lemma fixup_loop (P : ParamBounds) :
  forall new,
    NoDup (Dict.keys new ++ map KStr (Dict.keys P)) ->
    (forall k d, In (k, Nested d) P -> NoDup (Dict.keys d)) ->
    all_constructed P ->
    for_each fixup_step P new = Ok (new ++ as_mapping (map fixed_entry P)).
Proof.
  induction P as [| [k e] P IH]; intros new N W C; simpl.
  - now rewrite app_nil_r.
  - assert (F : ~ In (KStr k) (Dict.keys new)).
    { simpl in N. apply NoDup_remove_2 in N. intro I. apply N.
      apply in_or_app. now left. }
    assert (C' : all_constructed P).
    { intros k' b I. apply (C k' b). unfold flatitems in *. simpl.
      apply in_or_app. now right. }
    assert (S : fixup_step new (k, e)
                = Ok (new ++ as_mapping [fixed_entry (k, e)])).
    { unfold fixup_step. destruct e as [b | d]; simpl.
      - rewrite replace_constructed.
        + simpl. now rewrite Dict.set_fresh.
        + apply (C [k] b). unfold flatitems. simpl. now left.
      - rewrite traverse_replace_group.
        + simpl. rewrite Dict.of_items_distinct.
          * rewrite Dict.set_fresh by exact F. now rewrite map_map.
          * rewrite map_map. simpl. apply (W k d). now left.
        + intros s b I. apply (C [k; s] b). unfold flatitems. simpl.
          apply in_or_app. left. apply in_map_iff. exists (s, b). auto. }
    rewrite S. simpl Py.bind. rewrite IH; trivial.
    + now rewrite <- app_assoc.
    + unfold Dict.keys in *. rewrite map_app. simpl. rewrite <- app_assoc.
      exact N.
    + intros k' d I. apply (W k' d). now right.
Qed.

Lemma fixed_keys (P : ParamBounds) : Dict.keys (map fixed_entry P) = Dict.keys P.
Proof. unfold Dict.keys. rewrite map_map. now apply map_ext. Qed.

Lemma fixed_unique (P : ParamBounds) :
  unique_keys P -> unique_keys (map fixed_entry P).
Proof.
  intros [N W]. split; [now rewrite fixed_keys |].
  intros k d I. apply in_map_iff in I. destruct I as [[k' e] [E I]].
  unfold fixed_entry in E. simpl in E. destruct e as [b | d']; [discriminate |].
  injection E as <- <-. unfold Dict.keys. rewrite map_map. simpl.
  apply (W k' d' I).
Qed.

(** What [_fixup_param_names] returns on one entry per key and constructed
    bounds. *)
Lemma fixup_spec (P : ParamBounds) :
  unique_keys P -> all_constructed P ->
  _fixup_param_names P = Ok (map fixed_entry P).
Proof.
  intros U C. pose proof U as [N W]. unfold _fixup_param_names.
  rewrite (@fixup_loop P []); trivial.
  - simpl. apply init_as_mapping. now apply fixed_unique.
  - simpl. now apply NoDup_map_KStr.
Qed.

Lemma flatitems_fixed (P : ParamBounds) :
  flatitems (map fixed_entry P)
  = map (fun kb => (fst kb, stamp (snd kb) (fst kb))) (flatitems P).
Proof.
  unfold flatitems. induction P as [| [k e] P IH]; simpl; [reflexivity |].
  rewrite map_app, IH. f_equal. destruct e as [b | d]; simpl; [reflexivity |].
  now rewrite !map_map.
Qed.

Lemma constructed_stamp (b : PriorBounds) (k : FlatParamName) :
  constructed b -> constructed (stamp b k).
Proof. now destruct b as [[|] lo hi pn]. Qed.

Lemma fixed_idempotent (P : ParamBounds) :
  map fixed_entry (map fixed_entry P) = map fixed_entry P.
Proof.
  rewrite map_map. apply map_ext. intros [k e]. unfold fixed_entry. simpl.
  destruct e as [b | d]; [reflexivity |]. do 2 f_equal.
  rewrite map_map. now apply map_ext.
Qed.

(** X4. For a constructed [ParamBounds] [P], [_fixup_param_names] returns a
    [ParamBounds] with the flat keys of [P], in which every bound is the one
    of [P] with its [param_name] set to its own flat key; applying it again
    changes nothing. *)
Theorem fixup_param_names_stamps (m : list (PyKey * PyVal))
  (kwargs : list (string * PyVal)) (P : ParamBounds) :
  init m kwargs = Ok P ->
  all_constructed P ->
  exists Q,
    _fixup_param_names P = Ok Q
    /\ flatkeys Q = flatkeys P
    /\ flatitems Q
       = map (fun kb => (fst kb, stamp (snd kb) (fst kb))) (flatitems P)
    /\ _fixup_param_names Q = Ok Q.
Proof.
  intros I C. pose proof (@init_unique m kwargs P I) as U.
  exists (map fixed_entry P). split; [now apply fixup_spec |].
  split; [| split].
  - unfold flatkeys. rewrite flatitems_fixed, map_map. reflexivity.
  - apply flatitems_fixed.
  - rewrite fixup_spec.
    + now rewrite fixed_idempotent.
    + now apply fixed_unique.
    + intros k b J. rewrite flatitems_fixed in J. apply in_map_iff in J.
      destruct J as [[k' b'] [E J]]. simpl in E. injection E as <- <-.
      apply constructed_stamp. now apply (C k' b').
Qed.

(** X5. The [NoBounds()] that the constructor stores for [None] has no
    [param_name], so its [logpdf] raises [ValueError]; in what
    [_fixup_param_names] returns, the [logpdf] of every [NoBounds] is [0]. *)
Theorem logpdf_after_fixup (Pa Da Ma Aa : Type) (mpars : Pa) (data : Da)
  (model : Ma) (current : option Aa)
  (m : list (PyKey * PyVal)) (kwargs : list (string * PyVal))
  (P Q : ParamBounds) :
  init m kwargs = Ok P ->
  all_constructed P ->
  _fixup_param_names P = Ok Q ->
  NoBounds_logpdf no_bounds mpars data model current = Raise ValueError
  /\ forall k b,
       In (k, b) (flatitems Q) ->
       prior_class b = NoBoundsClass ->
       param_name b = Some k
       /\ NoBounds_logpdf b mpars data model current = Ok 0.
Proof.
  intros I C F. split; [reflexivity |].
  rewrite fixup_spec in F; [| exact (@init_unique m kwargs P I) | exact C].
  injection F as <-. intros k b J _. rewrite flatitems_fixed in J.
  apply in_map_iff in J. destruct J as [[k' b'] [E J]]. simpl in E.
  injection E as <- <-. split; reflexivity.
Qed.

Section FixupExamples.
Local Open Scope string_scope.

Lemma init_of_constructed_witness :
  init (as_mapping [("weight", Leaf no_bounds); ("phi2", Nested [("mu", no_bounds)])])
       []
  = Ok [("weight", Leaf no_bounds); ("phi2", Nested [("mu", no_bounds)])].
Proof.
  apply (@init_of_constructed
           [(KStr "weight", VNone); (KStr "phi2", VMapping [("mu", VNone)])] []).
  reflexivity.
Defined.

Lemma no_bounds_constructed (k : FlatParamName) (b : PriorBounds) :
  In (k, b)
     (flatitems [("weight", Leaf no_bounds); ("phi2", Nested [("mu", no_bounds)])]) ->
  constructed b.
Proof.
  simpl. intros [E | [E | []]]; injection E as _ <-; split; reflexivity.
Qed.

Lemma fixup_param_names_stamps_witness :
  exists Q,
    _fixup_param_names
      [("weight", Leaf no_bounds); ("phi2", Nested [("mu", no_bounds)])] = Ok Q
    /\ flatkeys Q
       = flatkeys [("weight", Leaf no_bounds); ("phi2", Nested [("mu", no_bounds)])]
    /\ flatitems Q
       = map (fun kb => (fst kb, stamp (snd kb) (fst kb)))
             (flatitems [("weight", Leaf no_bounds);
                         ("phi2", Nested [("mu", no_bounds)])])
    /\ _fixup_param_names Q = Ok Q.
Proof.
  apply (@fixup_param_names_stamps
           [(KStr "weight", VNone); (KStr "phi2", VMapping [("mu", VNone)])] []).
  - reflexivity.
  - exact no_bounds_constructed.
Defined.

Lemma logpdf_after_fixup_witness :
  NoBounds_logpdf no_bounds tt tt tt (@None unit) = Raise ValueError
  /\ forall k b,
       In (k, b)
          (flatitems [("weight", Leaf (stamp no_bounds ["weight"]));
                      ("phi2", Nested [("mu", stamp no_bounds ["phi2"; "mu"])])]) ->
       prior_class b = NoBoundsClass ->
       param_name b = Some k
       /\ NoBounds_logpdf b tt tt tt (@None unit) = Ok 0.
Proof.
  apply (@logpdf_after_fixup unit unit unit unit tt tt tt None
           [(KStr "weight", VNone); (KStr "phi2", VMapping [("mu", VNone)])] []
           [("weight", Leaf no_bounds); ("phi2", Nested [("mu", no_bounds)])]).
  - reflexivity.
  - exact no_bounds_constructed.
  - reflexivity.
Defined.

End FixupExamples.

(** ** Flat keys, validation and [from_names] *)

Lemma flatkeys_cons (k : string) (e : Entry) (P : ParamBounds) :
  flatkeys ((k, e) :: P)
  = match e with
    | Leaf _ => [[k]]
    | Nested d => map (fun s => [k; s]) (Dict.keys d)
    end ++ flatkeys P.
Proof.
  unfold flatkeys, flatitems. simpl. rewrite map_app. f_equal.
  destruct e as [b | d]; simpl; [reflexivity |].
  unfold Dict.keys. now rewrite !map_map.
Qed.

Lemma flatkeys_head (P : ParamBounds) (fk : FlatParamName) :
  In fk (flatkeys P) -> exists rest k, fk = k :: rest /\ In k (Dict.keys P).
Proof.
  induction P as [| [k e] P IH]; [intros [] |].
  rewrite flatkeys_cons. intro I. apply in_app_or in I. destruct I as [I | I].
  - destruct e as [b | d].
    + destruct I as [<- | []]. exists [], k. simpl. auto.
    + apply in_map_iff in I. destruct I as [s [<- _]]. exists [s], k.
      simpl. auto.
  - destruct (IH I) as [rest [k' [E J]]]. exists rest, k'. simpl. auto.
Qed.

Lemma flatkeys_unique (P : ParamBounds) :
  unique_keys P -> NoDup (flatkeys P).
Proof.
  intros [N W]. induction P as [| [k e] P IH]; [constructor |].
  rewrite flatkeys_cons. simpl in N. inversion N as [| ? ? X N']; subst.
  apply NoDup_app.
  - destruct e as [b | d].
    + repeat constructor. tauto.
    + assert (Nd : NoDup (Dict.keys d)) by (apply (W k d); now left).
      clear - Nd. induction Nd as [| s l Y Nd IH]; simpl; constructor; trivial.
      intro I. apply in_map_iff in I. destruct I as [s' [E I]].
      injection E as ->. contradiction.
  - apply IH; [exact N' |]. intros k' d I. apply (W k' d). now right.
  - intros fk I J. destruct (flatkeys_head P fk J) as [rest [k' [-> K]]].
    assert (k' = k).
    { destruct e as [b | d].
      - destruct I as [E | []]. now injection E.
      - apply in_map_iff in I. destruct I as [s [E _]]. now injection E. }
    subst k'. contradiction.
Qed.

(** X19. A constructed [ParamBounds] never lists a flat key twice, and
    [_fixup_param_names] changes neither its flat keys nor the outcome of
    [validate] against any declared names, with or without [error]. *)
Theorem validate_constructed (m : list (PyKey * PyVal))
  (kwargs : list (string * PyVal)) (P Q : ParamBounds) (names : ParamNames)
  (error : bool) :
  init m kwargs = Ok P ->
  all_constructed P ->
  _fixup_param_names P = Ok Q ->
  NoDup (flatkeys P)
  /\ flatkeys Q = flatkeys P
  /\ validate Q names error = validate P names error.
Proof.
  intros I C F. pose proof (@init_unique m kwargs P I) as U.
  split; [now apply flatkeys_unique |].
  rewrite fixup_spec in F by assumption. injection F as <-.
  assert (K : flatkeys (map fixed_entry P) = flatkeys P).
  { unfold flatkeys. rewrite flatitems_fixed, map_map. reflexivity. }
  split; [exact K |]. unfold validate. now rewrite K.
Qed.

Lemma entries_unique (default : PriorBounds) (names : ParamNames) :
  distinct_names names -> unique_keys (map (entry_of default) names).
Proof.
  intros [N S]. split.
  - unfold Dict.keys. rewrite map_map.
    erewrite map_ext; [exact N |]. intro pn. apply entry_of_key.
  - intros k d I. apply in_map_iff in I. destruct I as [pn [E I]].
    rewrite Forall_forall in S. specialize (S pn I).
    destruct pn as [s | g subs]; simpl in E; [discriminate |].
    injection E as <- <-. unfold Dict.keys. rewrite map_map. simpl.
    now rewrite map_id.
Qed.

Lemma entries_fixed (default : PriorBounds) (names : ParamNames) :
  map fixed_entry (map (entry_of default) names) = map (entry_of default) names.
Proof.
  rewrite map_map. apply map_ext. intros [s | g subs]; unfold fixed_entry; simpl.
  - reflexivity.
  - do 2 f_equal. rewrite map_map. now apply map_ext.
Qed.

(** X20. What [from_names] returns, on declared names without repeated keys,
    is already fixed up: [_fixup_param_names] returns it unchanged, and it
    validates against the declared names. *)
Theorem from_names_fixed_up (names : ParamNames) (default : PriorBounds) :
  distinct_names names ->
  constructed default ->
  exists P,
    from_names names default = Ok P
    /\ _fixup_param_names P = Ok P
    /\ validate P names true = Ok true.
Proof.
  intros D C. exists (map (entry_of default) names).
  split; [now apply from_names_distinct |]. split.
  - rewrite fixup_spec.
    + now rewrite entries_fixed.
    + now apply entries_unique.
    + intros k b I. rewrite flatitems_entries in I. apply in_map_iff in I.
      destruct I as [k' [E _]]. injection E as _ <-.
      now apply constructed_stamp.
  - unfold validate, flatkeys. rewrite flatitems_entries, map_map. simpl.
    rewrite map_id.
    destruct (list_eq_dec (list_eq_dec string_dec) (flats names) (flats names));
      [reflexivity | contradiction].
Qed.

Section ValidateExamples.
Local Open Scope string_scope.

Lemma validate_constructed_witness :
  NoDup (flatkeys [("weight", Leaf no_bounds); ("phi2", Nested [("mu", no_bounds)])])
  /\ flatkeys [("weight", Leaf (stamp no_bounds ["weight"]));
               ("phi2", Nested [("mu", stamp no_bounds ["phi2"; "mu"])])]
     = flatkeys [("weight", Leaf no_bounds); ("phi2", Nested [("mu", no_bounds)])]
  /\ validate [("weight", Leaf (stamp no_bounds ["weight"]));
               ("phi2", Nested [("mu", stamp no_bounds ["phi2"; "mu"])])]
              [Grouped "phi2" ["mu"]; Flat "weight"] true
     = validate [("weight", Leaf no_bounds); ("phi2", Nested [("mu", no_bounds)])]
                [Grouped "phi2" ["mu"]; Flat "weight"] true.
Proof.
  apply (@validate_constructed
           [(KStr "weight", VNone); (KStr "phi2", VMapping [("mu", VNone)])] []).
  - reflexivity.
  - exact no_bounds_constructed.
  - reflexivity.
Defined.

Lemma from_names_fixed_up_witness :
  exists P,
    from_names [Flat "weight"; Grouped "phi2" ["mu"; "sigma"]] no_bounds = Ok P
    /\ _fixup_param_names P = Ok P
    /\ validate P [Flat "weight"; Grouped "phi2" ["mu"; "sigma"]] true = Ok true.
Proof.
  apply (@from_names_fixed_up
           [Flat "weight"; Grouped "phi2" ["mu"; "sigma"]] no_bounds).
  - split.
    + simpl. repeat constructor; simpl; intuition discriminate.
    + repeat constructor; simpl; intuition discriminate.
  - simpl. split; reflexivity.
Defined.

End ValidateExamples.

End BoundsLaws.

(* ================================================================== *)
(** * [PriorBounds]: the pair of bounds *)

Module PriorLaws.

(** [PriorBounds.from_tuple(t, param_name)] on the class [NoBounds]: the
    pair is unpacked into the positional arguments of the constructor. *)
Definition NoBounds_from_tuple (t : float * float) (pn : option FlatParamName)
  : result PriorBounds :=
  NoBounds_init (fst t) (snd t) pn.

(** [PriorBounds.bounds] *)
Definition bounds (self : PriorBounds) : float * float := as_tuple self.

(** [PriorBounds.__iter__], as the list of what it yields. *)
Definition iter (self : PriorBounds) : list float :=
  [fst (bounds self); snd (bounds self)].

Lemma NoBounds_init_Ok (lo hi : float) (pn : option FlatParamName) (b : PriorBounds) :
  NoBounds_init lo hi pn = Ok b ->
  lo = neg_infinity /\ hi = infinity
  /\ b = mkPriorBounds NoBoundsClass neg_infinity infinity pn.
Proof.
  unfold NoBounds_init, NoBounds_post_init. simpl.
  destruct (float_ne lo neg_inf) eqn:Hlo; simpl; [discriminate |].
  destruct (float_ne hi inf) eqn:Hhi; simpl; [discriminate |].
  apply float_ne_neg_inf in Hlo. apply float_ne_inf in Hhi. subst.
  intro E. injection E as <-. auto.
Qed.

(** X6. Whatever [NoBounds.from_tuple(t, param_name)] returns has [t] as its
    [as_tuple()], [bounds] and iteration, and is rebuilt by [from_tuple] from
    its own [as_tuple()] and [param_name]. *)
Theorem from_tuple_as_tuple (t : float * float) (pn : option FlatParamName)
  (b : PriorBounds) :
  NoBounds_from_tuple t pn = Ok b ->
  as_tuple b = t
  /\ bounds b = t
  /\ iter b = [fst t; snd t]
  /\ param_name b = pn
  /\ NoBounds_from_tuple (as_tuple b) (param_name b) = Ok b.
Proof.
  destruct t as [lo hi]. unfold NoBounds_from_tuple. simpl. intro E.
  apply NoBounds_init_Ok in E. destruct E as [-> [-> ->]].
  repeat split.
Qed.

Lemma from_tuple_as_tuple_witness :
  as_tuple (mkPriorBounds NoBoundsClass neg_infinity infinity None)
  = (neg_infinity, infinity)
  /\ bounds (mkPriorBounds NoBoundsClass neg_infinity infinity None)
     = (neg_infinity, infinity)
  /\ iter (mkPriorBounds NoBoundsClass neg_infinity infinity None)
     = [fst (neg_infinity, infinity); snd (neg_infinity, infinity)]
  /\ param_name (mkPriorBounds NoBoundsClass neg_infinity infinity None) = None
  /\ NoBounds_from_tuple
       (as_tuple (mkPriorBounds NoBoundsClass neg_infinity infinity None))
       (param_name (mkPriorBounds NoBoundsClass neg_infinity infinity None))
     = Ok (mkPriorBounds NoBoundsClass neg_infinity infinity None).
Proof.
  apply (@from_tuple_as_tuple (neg_infinity, infinity) None).
  reflexivity.
Defined.

End PriorLaws.

(* ================================================================== *)
(** * [CompoundDataScaler]: construction, results and reduction *)

Module ScaleLaws.

Import Scale.

Section Laws.
Context {A S : Type} `{DataScaler A S}.

(** ** Construction *)

Lemma check_names_repeated (ns : list string) :
  forall seen,
    NoDup seen -> ~ NoDup (ns ++ seen) ->
    check_names seen ns = Raise ValueError.
Proof.
  unfold check_names. induction ns as [| n ns IH]; intros seen Ns D; simpl.
  - contradiction.
  - destruct (mem n seen) eqn:M; [reflexivity |]. simpl.
    apply mem_not_In in M. apply IH.
    + now constructor.
    + intro N. apply D. simpl.
      apply (Permutation_NoDup (l := ns ++ n :: seen)); [| exact N].
      symmetry. apply Permutation_middle.
Qed.

Lemma CompoundDataScaler_init_Ok (ss : list S) (c : CompoundDataScaler) :
  CompoundDataScaler_init ss = Ok c ->
  ss <> [] /\ NoDup (List.concat (map scaler_names ss))
  /\ c = mkCompound ss (List.concat (map scaler_names ss)).
Proof.
  intro E. destruct ss as [| s ss]; [discriminate |].
  destruct (ListDec.NoDup_dec string_dec
              (List.concat (map scaler_names (s :: ss)))) as [N | D].
  - rewrite CompoundDataScaler_init_distinct in E; [| discriminate | exact N].
    injection E as <-. repeat split; [discriminate | exact N].
  - unfold CompoundDataScaler_init in E.
    rewrite check_all_names, check_names_repeated in E; trivial.
    + discriminate.
    + constructor.
    + now rewrite app_nil_r.
Qed.

(** X7. [CompoundDataScaler(scalers)] is constructed exactly when there is at
    least one member and no name occurs twice among the members; a repeated
    name raises [ValueError], and an empty tuple of members raises
    [TypeError] (from the reduction without an initial value). *)
Theorem CompoundDataScaler_init_cases (ss : list S) :
  (ss = [] /\ CompoundDataScaler_init ss = Raise TypeError)
  \/ (ss <> [] /\ NoDup (List.concat (map scaler_names ss))
      /\ CompoundDataScaler_init ss
         = Ok (mkCompound ss (List.concat (map scaler_names ss))))
  \/ (~ NoDup (List.concat (map scaler_names ss))
      /\ CompoundDataScaler_init ss = Raise ValueError).
Proof.
  destruct ss as [| s ss]; [left; split; reflexivity | right].
  destruct (ListDec.NoDup_dec string_dec
              (List.concat (map scaler_names (s :: ss)))) as [N | D].
  - left. split; [discriminate |]. split; [exact N |].
    apply CompoundDataScaler_init_distinct; [discriminate | exact N].
  - right. split; [exact D |]. unfold CompoundDataScaler_init.
    rewrite check_all_names, check_names_repeated; trivial.
    + constructor.
    + now rewrite app_nil_r.
Qed.

(** ** The names of a reduced scaler *)

(** The names of what [__getitem__] returns. *)
Definition reduced_names (r : Reduced) : list string :=
  match r with
  | Single s => scaler_names s
  | Compound c => compound_names c
  end.

Lemma overlaps_filter (requested : list string) (ss : list S) :
  List.concat (map (fun s => overlap s requested) (filter (owns requested) ss))
  = filter (fun n => mem n requested) (List.concat (map scaler_names ss)).
Proof.
  induction ss as [| s ss IH]; simpl; [reflexivity |].
  rewrite filter_app, <- IH. fold (overlap s requested).
  unfold owns at 1. destruct (overlap s requested) as [| n ns] eqn:O; simpl.
  - reflexivity.
  - now rewrite O.
Qed.

(** X9. For a constructed compound scaler whose members reduce to the names
    they are asked for, the scaler that [__getitem__] returns has the
    compound scaler's names filtered to the requested ones: the names come in
    the compound scaler's order, not in the order of the request. *)
Theorem getitem_names (self : CompoundDataScaler) (names : string + list string)
  (r : Reduced) :
  CompoundDataScaler_init (scalers self) = Ok self ->
  Forall (reduces (names_tuple names)) (scalers self) ->
  getitem self names = Ok r ->
  reduced_names r
  = filter (fun n => mem n (names_tuple names)) (compound_names self).
Proof.
  intros I R G.
  destruct (CompoundDataScaler_init_Ok _ I) as [_ [N Es]].
  rewrite Es. cbn [compound_names].
  destruct (contributing_owners R) as [found [C [F M]]].
  pose proof (NoDup_overlaps (names_tuple names) _ N) as ND.
  rewrite <- overlaps_filter, <- M.
  unfold getitem in G. fold (names_tuple names) in G. rewrite C in G.
  simpl in G. destruct found as [| f1 [| f2 fs]].
  - discriminate.
  - simpl in G. injection G as <-. simpl. now rewrite app_nil_r.
  - change (Nat.ltb 1 (List.length (f1 :: f2 :: fs))) with true in G.
    cbv iota in G. rewrite CompoundDataScaler_init_distinct in G.
    + simpl in G. injection G as <-. reflexivity.
    + discriminate.
    + now rewrite M.
Qed.

(** ** [astype] *)

(** [CompoundDataScaler.astype(fmt, **kwargs)]: every member is converted by
    its own [astype], and [dataclasses.replace] constructs the compound
    scaler anew from the converted members.  [member_astype] is the members'
    method at the given format and keyword arguments. *)
Definition astype (member_astype : S -> result S) (self : CompoundDataScaler)
  : result CompoundDataScaler :=
  converted <- traverse member_astype (scalers self) ;;
  CompoundDataScaler_init converted.

Lemma traverse_names (member_astype : S -> result S) (ss : list S) :
  Forall (fun s => exists s', member_astype s = Ok s'
                              /\ scaler_names s' = scaler_names s) ss ->
  exists converted,
    traverse member_astype ss = Ok converted
    /\ Forall2 (fun s s' => member_astype s = Ok s') ss converted
    /\ map scaler_names converted = map scaler_names ss.
Proof.
  induction 1 as [| s ss [s' [E Ns]] F [converted [T [F2 M]]]]; simpl.
  - exists []. repeat split. constructor.
  - rewrite E. simpl. rewrite T. simpl. exists (s' :: converted).
    repeat split.
    + now constructor.
    + simpl. now rewrite Ns, M.
Qed.

(** X10. For a constructed compound scaler whose members keep their names
    under [astype], [astype] returns a compound scaler made of the converted
    members, in order, with the same names. *)
Theorem astype_keeps_structure (member_astype : S -> result S)
  (self : CompoundDataScaler) :
  CompoundDataScaler_init (scalers self) = Ok self ->
  Forall (fun s => exists s', member_astype s = Ok s'
                              /\ scaler_names s' = scaler_names s)
         (scalers self) ->
  exists converted,
    astype member_astype self = Ok converted
    /\ Forall2 (fun s s' => member_astype s = Ok s')
               (scalers self) (scalers converted)
    /\ compound_names converted = compound_names self.
Proof.
  intros I F.
  destruct (@traverse_names member_astype (scalers self) F)
    as [converted [T [F2 M]]].
  destruct (CompoundDataScaler_init_Ok _ I) as [NE [N I']].
  exists (mkCompound converted (List.concat (map scaler_names converted))).
  split; [| split].
  - unfold astype. rewrite T. simpl.
    apply CompoundDataScaler_init_distinct.
    + intros ->. inversion F2 as [E0 |]. now apply NE.
    + now rewrite M.
  - exact F2.
  - simpl. rewrite M. rewrite I' at 2. reflexivity.
Qed.

(** ** Raw arrays *)

(** The round-trip identity of one member on the columns [ns]. *)
Definition round_trips_on (s : S) (ns : list string) : Prop :=
  forall (a : Array A) (n : nat) (xp : ArrayNamespace),
    shaped n (List.length ns) a ->
    exists t u,
      scaler_transform s (IsData (mkData a ns)) ns (Some xp) = Ok t
      /\ shaped n (List.length ns) (array_of t)
      /\ scaler_inverse_transform s (IsData (mkData (array_of t) ns)) ns (Some xp)
         = Ok u
      /\ array_of u = a.

Lemma raw_round_trip_split (S1 S2 : S) (C : CompoundDataScaler) (X : Array A)
  (requested ns1 ns2 : list string) (n : nat) (xp : ArrayNamespace) :
  scalers C = [S1; S2] ->
  overlap S1 requested = ns1 ->
  overlap S2 requested = ns2 ->
  requested = ns1 ++ ns2 ->
  NoDup requested ->
  round_trips_on S1 ns1 ->
  round_trips_on S2 ns2 ->
  shaped n (List.length requested) X ->
  exists T,
    transform C (IsArray X) requested (Some xp) = Ok (IsArray T)
    /\ inverse_transform C (IsArray T) requested (Some xp) = Ok (IsArray X).
Proof.
  intros Sc O1 O2 E N R1 R2 Sh.
  assert (Sel : traverse (fun row => select requested row (ns1 ++ ns2)) X = Ok X).
  { pose proof (@Data_getitem_self A (mkData X requested) n N Sh) as G.
    unfold Data_getitem in G. simpl in G. rewrite <- E.
    destruct (traverse (fun row => select requested row requested) X) as [rows |];
      simpl in G; [| discriminate].
    now injection G as ->. }
  destruct (traverse_select_app _ _ _ _ Sel)
    as [c1 [c2 [T1 [T2 [J [Sh1 Sh2]]]]]].
  destruct (R1 c1 _ xp Sh1) as [t1 [u1 [Tr1 [St1 [In1 U1]]]]].
  destruct (R2 c2 _ xp Sh2) as [t2 [u2 [Tr2 [St2 [In2 U2]]]]].
  assert (N' : NoDup (ns1 ++ ns2)) by now rewrite <- E.
  destruct (@join_rows_select A ns1 ns2 N' (array_of t1) (array_of t2))
    as [xd [Jt [G1 G2]]].
  { destruct St1 as [L1 _], St2 as [L2 _]. congruence. }
  { apply St1. }
  { apply St2. }
  exists xd. split.
  - unfold transform, route. rewrite Sc. simpl. rewrite O1, O2.
    unfold Data_getitem. simpl. rewrite T1, T2. simpl.
    rewrite Tr1. simpl. rewrite Tr2. simpl. rewrite Jt. reflexivity.
  - unfold inverse_transform, route. rewrite Sc. simpl. rewrite O1, O2.
    unfold Data_getitem. simpl. rewrite <- E in G1, G2. rewrite G1, G2. simpl.
    rewrite In1. simpl. rewrite In2. simpl. rewrite U1, U2, J. reflexivity.
Qed.

(** X11. For a raw array whose columns are labelled by [names], any
    duplicate-free selection of the members' names that is listed in the
    compound scaler's order, [inverse_transform] of [transform], both with
    these [names], returns the array, provided each member satisfies its
    round-trip identity on the columns it is handed. *)
Theorem raw_round_trip (S1 S2 : S) (C : CompoundDataScaler) (X : Array A)
  (requested : list string) (n : nat) (xp : ArrayNamespace) :
  scalers C = [S1; S2] ->
  requested = overlap S1 requested ++ overlap S2 requested ->
  NoDup requested ->
  round_trips_on S1 (overlap S1 requested) ->
  round_trips_on S2 (overlap S2 requested) ->
  shaped n (List.length requested) X ->
  exists T,
    transform C (IsArray X) requested (Some xp) = Ok (IsArray T)
    /\ inverse_transform C (IsArray T) requested (Some xp) = Ok (IsArray X).
Proof.
  intros Sc E N R1 R2 Sh.
  exact (@raw_round_trip_split S1 S2 C X requested _ _ n xp
           Sc eq_refl eq_refl E N R1 R2 Sh).
Qed.

End Laws.

Lemma offset_round_trips_on (s : OffsetScaler) (ns : list string) :
  round_trips_on s ns.
Proof.
  intros a n xp [L F]. simpl.
  exists (IsData (mkData (map (map (fun x => (x + offset s)%Z)) a) ns)),
         (IsData (mkData a ns)).
  split; [reflexivity |]. split; [| split; [| reflexivity]].
  - simpl. split; [now rewrite length_map |].
    apply Forall_map. eapply Forall_impl; [| exact F].
    intros r E. simpl in *. now rewrite length_map.
  - unfold offset_apply. simpl. do 3 f_equal.
    rewrite map_map. rewrite <- (map_id a) at 2. apply map_ext.
    intro r. rewrite map_map. rewrite <- (map_id r) at 2. apply map_ext.
    intro x. lia.
Qed.

Section Examples.
Local Open Scope string_scope.
Local Open Scope Z_scope.

(** Three members; the third owns two columns. *)
Definition member_cd : OffsetScaler := mkOffset ["c"; "d"] 5.

Definition three_members : CompoundDataScaler :=
  mkCompound [member_a; member_b; member_cd] ["a"; "b"; "c"; "d"].

Example repeated_name_rejected :
  CompoundDataScaler_init [member_a; mkOffset ["b"; "a"] 2] = Raise ValueError.
Proof. reflexivity. Qed.

Lemma getitem_names_witness :
  reduced_names
    (Compound (mkCompound [mkOffset ["a"] 1; mkOffset ["c"] 5] ["a"; "c"]))
  = filter (fun n => mem n (names_tuple (inr ["c"; "a"])))
           (compound_names three_members).
Proof.
  apply (@getitem_names Z OffsetScaler _ three_members (inr ["c"; "a"])).
  - reflexivity.
  - repeat constructor; apply offset_reduces.
  - reflexivity.
Defined.

Lemma astype_keeps_structure_witness :
  exists converted,
    astype (fun s => Ok (mkOffset (offset_names s) (offset s))) three_members
    = Ok converted
    /\ Forall2 (fun s s' => Ok (mkOffset (offset_names s) (offset s)) = Ok s')
               (scalers three_members) (scalers converted)
    /\ compound_names converted = compound_names three_members.
Proof.
  apply (@astype_keeps_structure Z OffsetScaler _
           (fun s => Ok (mkOffset (offset_names s) (offset s))) three_members).
  - reflexivity.
  - repeat constructor; eexists; split; reflexivity.
Defined.

(** A raw array with the columns [("a", "d")]: a strict subset, in order. *)
Lemma raw_round_trip_witness :
  exists T,
    transform (mkCompound [member_a; member_cd] ["a"; "c"; "d"])
              (IsArray [[1; 2]; [3; 4]]) ["a"; "d"] (Some Namespace)
    = Ok (IsArray T)
    /\ inverse_transform (mkCompound [member_a; member_cd] ["a"; "c"; "d"])
                         (IsArray T) ["a"; "d"] (Some Namespace)
       = Ok (IsArray [[1; 2]; [3; 4]]).
Proof.
  apply (@raw_round_trip Z OffsetScaler _ member_a member_cd
           (mkCompound [member_a; member_cd] ["a"; "c"; "d"])
           [[1; 2]; [3; 4]] ["a"; "d"] 2%nat Namespace).
  - reflexivity.
  - reflexivity.
  - repeat constructor; simpl; intuition discriminate.
  - apply offset_round_trips_on.
  - apply offset_round_trips_on.
  - split; [reflexivity | repeat constructor].
Defined.

End Examples.

End ScaleLaws.

(* ================================================================== *)
(** * [stream_ml/jax/mixture.py]: the forward pass *)

Module Forward.

Local Open Scope R_scope.

(** What the forward pass consumes from a component: [model(args)]. *)
Record Component : Type := mkComponent {
  forward : list (Array R) -> result (Array R)
}.

(** A Python value in argument position of a prior's [__call__]. *)
Inductive CallArg : Type :=
| ArgOutput (nn : Array R)
| ArgFlats (flats : list FlatParamName)
| ArgObject.

(** A top-level prior: the body of its [__call__], whose parameters are
    those of [PriorBounds.__call__]: [nn], [data] and [model]. *)
Record Clamp : Type := mkClamp {
  clamp : CallArg -> CallArg -> CallArg -> result (Array R)
}.

(** A call of [prior] with positional arguments [args]: the method's
    parameters are [self, nn, data, model], all positional-only and without
    defaults, so any number of arguments other than three is a
    [TypeError]. *)
Definition call_prior (prior : Clamp) (args : list CallArg) : result (Array R) :=
  match args with
  | [nn; data; model] => clamp prior nn data model
  | _ => Raise TypeError
  end.

(** The fields the forward pass reads. *)
Record MixtureModel : Type := mkMixture {
  components : Dict.t string Component;
  priors : Dict.t string Clamp;
  param_names : ParamNames
}.

(** [xp.concatenate(arrays, axis=1)] on two-dimensional arrays. *)
Definition concatenate_columns (arrays : list (Array R)) : result (Array R) :=
  hstack arrays.

(** [MixtureModel.__call__(args)] *)
Definition call (self : MixtureModel) (args : list (Array R)) : result (Array R) :=
  outputs <- traverse (fun model => forward model args)
                      (map snd (components self)) ;;
  result <- concatenate_columns outputs ;;
  for_each
    (fun result prior =>
       call_prior prior [ArgOutput result; ArgFlats (flats (param_names self))])
    (map snd (priors self)) result.

Lemma traverse_outputs (comps : list (string * Component)) (args : list (Array R))
  (n : nat) (outputs : list (Array R)) :
  Forall2 (fun nm out => forward (snd nm) args = Ok out /\ List.length out = n)
          comps outputs ->
  traverse (fun model => forward model args) (map snd comps) = Ok outputs
  /\ Forall (fun a => List.length a = n) outputs.
Proof.
  induction 1 as [| nm out comps outs [E L] F [IH1 IH2]]; simpl.
  - split; [reflexivity | constructor].
  - rewrite E. simpl. rewrite IH1. simpl. split; [reflexivity |].
    now constructor.
Qed.

(** X12. Without top-level priors, and with at least one component, the
    forward pass returns the components' outputs joined along the column
    axis in the order of the component mapping: row [i] of the result is the
    concatenation of the [i]-th rows of the outputs. *)
Theorem call_concatenates (self : MixtureModel) (args : list (Array R))
  (n : nat) (outputs : list (Array R)) :
  priors self = [] ->
  components self <> [] ->
  Forall2 (fun nm out => forward (snd nm) args = Ok out /\ List.length out = n)
          (components self) outputs ->
  call self args
  = Ok (map (fun i => List.concat (map (fun out => nth i out []) outputs))
            (seq 0 n)).
Proof.
  intros P NE F.
  destruct (@traverse_outputs (components self) args n outputs F) as [T L].
  assert (NC : outputs <> []).
  { intro E. subst. inversion F as [E' |]. now apply NE. }
  unfold call, concatenate_columns. rewrite T. simpl.
  rewrite (@Mixture.hstack_rows n outputs NC L). simpl. now rewrite P.
Qed.

(** X13. With at least one top-level prior the forward pass cannot return:
    once the components' outputs are joined, the first prior is called with
    two arguments where its [__call__] takes three, which is a
    [TypeError]. *)
Theorem call_with_prior_raises (self : MixtureModel) (args : list (Array R))
  (outputs : list (Array R)) (joined : Array R) :
  priors self <> [] ->
  traverse (fun model => forward model args) (map snd (components self))
  = Ok outputs ->
  concatenate_columns outputs = Ok joined ->
  call self args = Raise TypeError.
Proof.
  intros NE T J. unfold call. rewrite T. simpl. rewrite J. simpl.
  destruct (priors self) as [| [name prior] rest]; [contradiction |].
  reflexivity.
Qed.

Section Examples.
Local Open Scope string_scope.

Definition constant_component (out : Array R) : Component :=
  mkComponent (fun _ => Ok out).

(** A prior in the manner of [NoBounds.__call__]: the identity. *)
Definition identity_clamp : Clamp :=
  mkClamp (fun nn _ _ => match nn with
                         | ArgOutput a => Ok a
                         | _ => Raise TypeError
                         end).

(** Two one-row components with outputs [[0.3]] and [[0.7]]. *)
Lemma call_concatenates_witness :
  call (mkMixture [("stream", constant_component [[3 / 10]]);
                   ("bkg", constant_component [[7 / 10]])] [] [Flat "weight"])
       []
  = Ok (map (fun i => List.concat (map (fun out => nth i out [])
                                       [[[3 / 10]]; [[7 / 10]]]))
            (seq 0 1)).
Proof.
  apply (@call_concatenates
           (mkMixture [("stream", constant_component [[3 / 10]]);
                       ("bkg", constant_component [[7 / 10]])] [] [Flat "weight"])
           [] 1%nat [[[3 / 10]]; [[7 / 10]]]).
  - reflexivity.
  - discriminate.
  - repeat constructor.
Defined.

Example call_two_components :
  call (mkMixture [("stream", constant_component [[3 / 10]]);
                   ("bkg", constant_component [[7 / 10]])] [] [Flat "weight"])
       []
  = Ok [[3 / 10; 7 / 10]].
Proof. reflexivity. Qed.

Lemma call_with_prior_raises_witness :
  call (mkMixture [("stream", constant_component [[3 / 10]])]
                  [("weight", identity_clamp)] [Flat "weight"]) []
  = Raise TypeError.
Proof.
  apply (@call_with_prior_raises
           (mkMixture [("stream", constant_component [[3 / 10]])]
                      [("weight", identity_clamp)] [Flat "weight"])
           [] [[[3 / 10]]] [[3 / 10]]).
  - discriminate.
  - reflexivity.
  - reflexivity.
Defined.

End Examples.

End Forward.

(* ================================================================== *)
(** * [BoundedHardThreshold]: the clamp and the penalty *)

Module WeightLaws.

Import Weight.

(** ** Floats *)

Lemma SFcompare_refl (f : SpecFloat.spec_float) :
  f <> SpecFloat.S754_nan -> SpecFloat.SFcompare f f = Some Eq.
Proof.
  destruct f as [s | s | | s m e]; simpl; intro N; try reflexivity.
  - now destruct s.
  - contradiction.
  - destruct s; rewrite Z.compare_refl, Pos.compare_cont_refl; reflexivity.
Qed.

Lemma is_nan_Prim2SF (x : float) :
  PrimFloat.is_nan x = true -> Prim2SF x = SpecFloat.S754_nan.
Proof.
  unfold PrimFloat.is_nan. rewrite FloatAxioms.eqb_spec. unfold SpecFloat.SFeqb.
  intro E. destruct (Prim2SF x) as [s | s | | s m e] eqn:P; trivial;
    rewrite SFcompare_refl in E; discriminate.
Qed.

(** A NaN is within no bounds. *)
Lemma within_bounds_nan (x lo hi : float) :
  PrimFloat.is_nan x = true -> within_bounds x lo hi = false.
Proof.
  intro N. unfold within_bounds. rewrite FloatAxioms.leb_spec.
  rewrite (is_nan_Prim2SF x N). unfold SpecFloat.SFleb.
  now destruct (Prim2SF lo).
Qed.

(** A value below another is less than or equal to it. *)
Lemma ltb_leb (x y : float) :
  PrimFloat.ltb x y = true -> PrimFloat.leb x y = true.
Proof.
  rewrite FloatAxioms.ltb_spec, FloatAxioms.leb_spec.
  unfold SpecFloat.SFltb, SpecFloat.SFleb.
  destruct (SpecFloat.SFcompare (Prim2SF x) (Prim2SF y)) as [[| |] |];
    trivial; discriminate.
Qed.

(** ** The clamp *)

Lemma torch_threshold_idempotent (x t value : float) :
  torch_threshold (torch_threshold x t value) t value = torch_threshold x t value.
Proof.
  unfold torch_threshold. destruct (PrimFloat.leb x t) eqn:E.
  - now destruct (PrimFloat.leb value t).
  - now rewrite E.
Qed.

Lemma set_nth_length (row : list float) (col : nat) (v : float) :
  List.length (set_nth row col v) = List.length row.
Proof.
  revert col. induction row as [| x row IH]; intros [| col]; simpl; trivial.
  now rewrite IH.
Qed.

Lemma set_nth_twice (row : list float) (col : nat) (v w : float) :
  set_nth (set_nth row col v) col w = set_nth row col w.
Proof.
  revert col. induction row as [| x row IH]; intros [| col]; simpl; trivial.
  now rewrite IH.
Qed.

Lemma update_row_length (f : float -> float) (col : nat) (row : list float)
  (w : bool) :
  List.length (update_row f col row w) = List.length row.
Proof.
  unfold update_row. destruct w; trivial.
  destruct (nth_error row col); trivial. apply set_nth_length.
Qed.

Lemma update_row_idempotent (f : float -> float) (col : nat) (row : list float)
  (w : bool) :
  (forall x, f (f x) = f x) ->
  update_row f col (update_row f col row w) w = update_row f col row w.
Proof.
  intro Fi. unfold update_row. destruct w; trivial.
  destruct (nth_error row col) as [x |] eqn:N.
  - rewrite set_nth_read by (apply nth_error_Some; congruence).
    rewrite Nat.eqb_refl, set_nth_twice. now rewrite Fi.
  - now rewrite N.
Qed.

Lemma update_rows_idempotent (f : float -> float) (col : nat) (a : Array float) :
  (forall x, f (f x) = f x) ->
  forall mask, update_rows f col (update_rows f col a mask) mask
               = update_rows f col a mask.
Proof.
  intro Fi. induction a as [| row a IH]; intros [| w mask]; simpl; trivial.
  now rewrite update_row_idempotent, IH.
Qed.

Lemma update_rows_widths (f : float -> float) (col : nat) (a : Array float) :
  forall mask,
    Forall (fun row => col < List.length row) a ->
    Forall (fun row => col < List.length row) (update_rows f col a mask).
Proof.
  induction a as [| row a IH]; intros [| w mask] F; simpl; try constructor.
  - inversion F; subst. now rewrite update_row_length.
  - inversion F; subst. now apply IH.
Qed.

Lemma update_rows_unselected (f : float -> float) (col : nat) (a : Array float) :
  forall mask i row,
    nth_error mask i = Some false ->
    nth_error a i = Some row ->
    nth_error (update_rows f col a mask) i = Some row.
Proof.
  induction a as [| r a IH]; intros [| w mask] [| i] row M E; simpl in *;
    try discriminate.
  - injection M as ->. exact E.
  - now apply IH.
Qed.

(** What the call leaves in the store. *)
Lemma call_result (self : BoundedHardThreshold) (dtype : Dtype) (h : Heap)
  (nn : Ref) (source : Array float) (data : Data float) (model : Model)
  (im1 : nat) (column : list float) (t : float) :
  heap_read h nn = Some source ->
  tuple_find (flat model) "weight"%string = Ok im1 ->
  Data_column data (coord_name self) = Ok column ->
  List.length column = List.length source ->
  Forall (fun row => im1 < List.length row) source ->
  scalar_to dtype (threshold self) = Ok t ->
  call self dtype h nn data model
  = Ok (h ++ [update_rows (fun x => torch_threshold x t zero) im1
                          source
                          (map (fun x => within_bounds x (lower self) (upper self))
                               column)],
        List.length h).
Proof.
  intros R I C L F T.
  set (where_ := map (fun x => within_bounds x (lower self) (upper self)) column).
  set (f := fun x => torch_threshold x t zero).
  assert (Lw : List.length where_ = List.length source).
  { unfold where_. now rewrite length_map. }
  destruct (masked_update f where_ Lw F) as [sel [G S]].
  unfold call. rewrite I. cbn [Py.bind]. rewrite C. cbn [Py.bind].
  rewrite R. unfold heap_alloc.
  fold where_. rewrite G. cbn [Py.bind]. rewrite T. cbn [Py.bind].
  rewrite scalar_to_zero. cbn [Py.bind].
  pose proof (heap_alloc_read h source) as A. unfold heap_alloc in A.
  simpl in A. rewrite A. fold f. rewrite S. cbn [Py.bind].
  now rewrite heap_write_last.
Qed.

Lemma heap_read_last (h : Heap) (a : Array float) :
  heap_read (h ++ [a]) (List.length h) = Some a.
Proof.
  unfold heap_read. rewrite nth_error_app2 by lia. now rewrite Nat.sub_diag.
Qed.

(** X14. The clamp is idempotent, in a tensor of either dtype to which the
    threshold converts: applied to its own result, with the same data and
    model, it returns an array equal to that result. *)
Theorem call_idempotent (self : BoundedHardThreshold) (dtype : Dtype) (h : Heap)
  (nn : Ref) (source : Array float) (data : Data float) (model : Model)
  (im1 : nat) (column : list float) (t : float) :
  heap_read h nn = Some source ->
  tuple_find (flat model) "weight"%string = Ok im1 ->
  Data_column data (coord_name self) = Ok column ->
  List.length column = List.length source ->
  Forall (fun row => im1 < List.length row) source ->
  scalar_to dtype (threshold self) = Ok t ->
  exists h1 out1 h2 out2 result,
    call self dtype h nn data model = Ok (h1, out1)
    /\ call self dtype h1 out1 data model = Ok (h2, out2)
    /\ heap_read h1 out1 = Some result
    /\ heap_read h2 out2 = Some result
    /\ heap_read h2 out1 = Some result.
Proof.
  intros R I C L F T.
  set (where_ := map (fun x => within_bounds x (lower self) (upper self)) column).
  set (f := fun x => torch_threshold x t zero).
  set (result := update_rows f im1 source where_).
  assert (Lw : List.length where_ = List.length source).
  { unfold where_. now rewrite length_map. }
  exists (h ++ [result]), (List.length h),
         ((h ++ [result]) ++ [result]), (List.length (h ++ [result])), result.
  split; [now apply call_result |]. split; [| split; [| split]].
  - rewrite (@call_result self dtype (h ++ [result]) (List.length h) result data
               model im1 column t); trivial.
    + assert (Idem : update_rows f im1 result where_ = result).
      { unfold result. apply update_rows_idempotent.
        intro x. apply torch_threshold_idempotent. }
      change (Ok ((h ++ [result]) ++ [update_rows f im1 result where_],
                  List.length (h ++ [result]))
              = Ok ((h ++ [result]) ++ [result], List.length (h ++ [result]))).
      now rewrite Idem.
    + apply heap_read_last.
    + unfold result. now rewrite update_rows_length.
    + unfold result. now apply update_rows_widths.
  - apply heap_read_last.
  - apply heap_read_last.
  - rewrite heap_old_objects; [apply heap_read_last |].
    rewrite length_app. simpl. lia.
Qed.

(** X15. A row whose [coord_name] value is NaN is within no bounds, so the
    clamp returns it unchanged, whatever [lower] and [upper] are, for every
    [threshold] that converts to the dtype of the tensor. *)
Theorem call_keeps_nan_rows (self : BoundedHardThreshold) (dtype : Dtype)
  (h : Heap) (nn : Ref) (source : Array float) (data : Data float)
  (model : Model) (im1 : nat) (column : list float) (t : float) (i : nat)
  (x : float) (row : list float) :
  heap_read h nn = Some source ->
  tuple_find (flat model) "weight"%string = Ok im1 ->
  Data_column data (coord_name self) = Ok column ->
  List.length column = List.length source ->
  Forall (fun row => im1 < List.length row) source ->
  scalar_to dtype (threshold self) = Ok t ->
  nth_error column i = Some x ->
  PrimFloat.is_nan x = true ->
  nth_error source i = Some row ->
  exists h' out result,
    call self dtype h nn data model = Ok (h', out)
    /\ heap_read h' out = Some result
    /\ nth_error result i = Some row.
Proof.
  intros R I C L F T Nx Nan Nr.
  eexists. eexists. eexists.
  split; [exact (@call_result self dtype h nn source data model im1 column t
                              R I C L F T) |].
  split; [apply heap_read_last |].
  apply update_rows_unselected; [| exact Nr].
  rewrite nth_error_map, Nx. simpl. now rewrite within_bounds_nan.
Qed.

(** ** The penalty *)

(** The mask over the data rows against the [n] rows of the weight: equal
    counts pair off, a single data row is repeated over all rows (it is
    broadcast), and any other combination is an error. *)
Definition broadcast_rows (inside : list bool) (n : nat) : option (list bool) :=
  if Nat.eqb (List.length inside) n then Some inside
  else if Nat.eqb (List.length inside) 1 then Some (repeat (hd false inside) n)
  else None.

(** One row of [lnp] after [lnp[mask] = -inf], starting from zeros. *)
Definition penalty_row (t : float) (inside : bool) (row : list float) : list float :=
  map (fun v => if inside && PrimFloat.ltb v t then neg_infinity else zero) row.

Fixpoint penalty_rows (t : float) (mask : list bool) (weight : Array float)
  : Array float :=
  match mask, weight with
  | inside :: mask', row :: weight' =>
      penalty_row t inside row :: penalty_rows t mask' weight'
  | _, _ => []
  end.

(** [BoundedHardThreshold.logpdf(mpars, data, model, current_lnpdf)]; [None]
    stands for a raised exception.  The weight [mpars[("weight",)]] is looked
    up as a flat name; a one-dimensional weight cannot be indexed by the
    two-dimensional mask.  [dtype] is the dtype of the weight, in which it is
    compared with the threshold. *)
Definition logpdf (self : BoundedHardThreshold) (dtype : Dtype)
  (mpars : Background.FrozenParams float) (data : Data float)
  : option (Array float) :=
  match Background.flat_get mpars ["weight"%string] with
  | Some (Background.Tensor2 weight) =>
      match Data_column data (coord_name self) with
      | Ok column =>
          let inside :=
            map (fun x => within_bounds x (lower self) (upper self)) column in
          match broadcast_rows inside (List.length weight) with
          | Some mask =>
              Some (penalty_rows (as_dtype dtype (threshold self)) mask weight)
          | None => None
          end
      | Raise _ => None
      end
  | _ => None
  end.

Lemma penalty_rows_length (t : float) (weight : Array float) :
  forall mask,
    List.length mask = List.length weight ->
    List.length (penalty_rows t mask weight) = List.length weight.
Proof.
  induction weight as [| row weight IH]; intros [| w mask] L; try discriminate;
    simpl; trivial.
  f_equal. apply IH. simpl in L. lia.
Qed.

Lemma penalty_rows_entry (t : float) (weight : Array float) :
  forall mask i j inside v,
    nth_error mask i = Some inside ->
    entry weight i j = Some v ->
    entry (penalty_rows t mask weight) i j
    = Some (if inside && PrimFloat.ltb v t then neg_infinity else zero).
Proof.
  unfold entry.
  induction weight as [| row weight IH]; intros [| w mask] [| i] j inside v M E;
    simpl in *; try discriminate.
  - injection M as ->. unfold penalty_row. rewrite nth_error_map, E. reflexivity.
  - now apply IH.
Qed.

(** X16. For a two-dimensional weight with one row per data row, [logpdf]
    returns an array of that many rows whose entry is [-inf] where the row's
    [coord_name] value lies within the bounds and the weight is strictly
    below the threshold, as the dtype of the weight holds it, and [0]
    elsewhere; every entry it penalises is one that [__call__] replaces by
    zero. *)
Theorem logpdf_entries (self : BoundedHardThreshold) (dtype : Dtype)
  (mpars : Background.FrozenParams float) (data : Data float)
  (weight : Array float) (column : list float) :
  Background.flat_get mpars ["weight"%string] = Some (Background.Tensor2 weight) ->
  Data_column data (coord_name self) = Ok column ->
  List.length column = List.length weight ->
  exists lnp,
    logpdf self dtype mpars data = Some lnp
    /\ List.length lnp = List.length weight
    /\ forall i j x v,
         nth_error column i = Some x ->
         entry weight i j = Some v ->
         entry lnp i j
         = Some (if within_bounds x (lower self) (upper self)
                    && PrimFloat.ltb v (as_dtype dtype (threshold self))
                 then neg_infinity else zero)
         /\ forall t,
              scalar_to dtype (threshold self) = Ok t ->
              within_bounds x (lower self) (upper self)
              && PrimFloat.ltb v (as_dtype dtype (threshold self)) = true ->
              torch_threshold v t zero = zero.
Proof.
  intros W C L.
  set (inside := map (fun x => within_bounds x (lower self) (upper self)) column).
  assert (Li : List.length inside = List.length weight).
  { unfold inside. now rewrite length_map. }
  exists (penalty_rows (as_dtype dtype (threshold self)) inside weight).
  split; [| split].
  - unfold logpdf. rewrite W, C. fold inside. unfold broadcast_rows.
    now rewrite Li, Nat.eqb_refl.
  - now apply penalty_rows_length.
  - intros i j x v Nx E. split.
    + apply penalty_rows_entry; [| exact E].
      unfold inside. now rewrite nth_error_map, Nx.
    + intros t St T. apply andb_true_iff in T. destruct T as [_ T].
      apply scalar_to_as_dtype in St. subst t.
      unfold torch_threshold. now rewrite (@ltb_leb _ _ T).
Qed.

Section Examples.
Local Open Scope string_scope.
Local Open Scope float_scope.
Local Set Warnings "-inexact-float".

Lemma call_idempotent_witness :
  exists h1 out1 h2 out2 result,
    call default_threshold float64 [[[0.5; 0.001]; [0.001; 0.25]]] 0%nat
         (mkData [[1]; [2]] ["phi1"]) (mkModel ["weight"; "phi2_mu"])
    = Ok (h1, out1)
    /\ call default_threshold float64 h1 out1
            (mkData [[1]; [2]] ["phi1"]) (mkModel ["weight"; "phi2_mu"])
       = Ok (h2, out2)
    /\ heap_read h1 out1 = Some result
    /\ heap_read h2 out2 = Some result
    /\ heap_read h2 out1 = Some result.
Proof.
  apply (@call_idempotent
           default_threshold float64 [[[0.5; 0.001]; [0.001; 0.25]]] 0%nat
           [[0.5; 0.001]; [0.001; 0.25]]
           (mkData [[1]; [2]] ["phi1"]) (mkModel ["weight"; "phi2_mu"])
           0%nat [1; 2] 0.005).
  - reflexivity.
  - reflexivity.
  - reflexivity.
  - reflexivity.
  - repeat constructor; simpl; lia.
  - reflexivity.
Defined.

Lemma call_keeps_nan_rows_witness :
  exists h' out result,
    call default_threshold float32 [[[0.5; 0.001]; [0.001; 0.25]]] 0%nat
         (mkData [[1]; [nan]] ["phi1"]) (mkModel ["weight"; "phi2_mu"])
    = Ok (h', out)
    /\ heap_read h' out = Some result
    /\ nth_error result 1 = Some [0.001; 0.25].
Proof.
  apply (@call_keeps_nan_rows
           default_threshold float32 [[[0.5; 0.001]; [0.001; 0.25]]] 0%nat
           [[0.5; 0.001]; [0.001; 0.25]]
           (mkData [[1]; [nan]] ["phi1"]) (mkModel ["weight"; "phi2_mu"])
           0%nat [1; nan] (round_float32 0.005) 1%nat nan [0.001; 0.25]).
  - reflexivity.
  - reflexivity.
  - reflexivity.
  - reflexivity.
  - repeat constructor; simpl; lia.
  - reflexivity.
  - reflexivity.
  - reflexivity.
  - reflexivity.
Defined.

Lemma logpdf_entries_witness :
  exists lnp,
    logpdf default_threshold float64
           [("weight", Background.PLeaf (Background.Tensor2 [[0.5]; [0.001]]))]
           (mkData [[1]; [2]] ["phi1"]) = Some lnp
    /\ List.length lnp = List.length [[0.5]; [0.001]]
    /\ forall i j x v,
         nth_error [1; 2] i = Some x ->
         entry [[0.5]; [0.001]] i j = Some v ->
         entry lnp i j
         = Some (if within_bounds x (lower default_threshold)
                                  (upper default_threshold)
                    && PrimFloat.ltb v (as_dtype float64 (threshold default_threshold))
                 then neg_infinity else zero)
         /\ forall t,
              scalar_to float64 (threshold default_threshold) = Ok t ->
              within_bounds x (lower default_threshold) (upper default_threshold)
              && PrimFloat.ltb v (as_dtype float64 (threshold default_threshold))
              = true ->
              torch_threshold v t zero = zero.
Proof.
  apply (@logpdf_entries default_threshold float64
           [("weight", Background.PLeaf (Background.Tensor2 [[0.5]; [0.001]]))]
           (mkData [[1]; [2]] ["phi1"]) [[0.5]; [0.001]] [1; 2]).
  - reflexivity.
  - reflexivity.
  - reflexivity.
Defined.

Example logpdf_two_rows :
  logpdf default_threshold float64
         [("weight", Background.PLeaf (Background.Tensor2 [[0.5]; [0.001]]))]
         (mkData [[1]; [2]] ["phi1"])
  = Some [[0]; [neg_infinity]].
Proof. reflexivity. Qed.

(** An entry equal to the threshold is not penalised, though the clamp
    replaces it by zero. *)
Example logpdf_at_threshold :
  logpdf default_threshold float64
         [("weight", Background.PLeaf (Background.Tensor2 [[0.005]]))]
         (mkData [[1]] ["phi1"])
  = Some [[0]].
Proof. reflexivity. Qed.

(** In a binary32 weight the threshold is the binary32 nearest to [0.005],
    which is below the binary64 [0.005]: an entry equal to it is not
    penalised. *)
Example logpdf_in_dtype :
  logpdf default_threshold float32
         [("weight", Background.PLeaf (Background.Tensor2 [[0.004999999888241291]]))]
         (mkData [[1]] ["phi1"])
  = Some [[0]]
  /\ PrimFloat.ltb 0.004999999888241291 0.005 = true.
Proof. split; reflexivity. Qed.

End Examples.

End WeightLaws.

(* ================================================================== *)
(** * [BackgroundModel]: the unpacked columns *)

Module BackgroundLaws.

Import Background.

Section Laws.
Variable A : Type.

Lemma join_rows_maps {X : Type} (f g : X -> list A) (l : list X) :
  join_rows (map f l) (map g l) = Ok (map (fun i => f i ++ g i) l).
Proof.
  induction l as [| x l IH]; simpl; [reflexivity |].
  rewrite IH. reflexivity.
Qed.

Lemma firstn_step (m : nat) (t : list A) :
  firstn 1 t ++ firstn m (skipn 1 t) = firstn (S m) t.
Proof. destruct t as [| x t]; simpl; [now destruct m | reflexivity]. Qed.

(** Joining [len >= 1] adjacent column slices gives the block of columns. *)
Lemma hstack_column_slices (p_arr : Array A) (len : nat) :
  forall start,
    hstack (map (column_slice p_arr) (seq start (S len)))
    = Ok (map (fun row => firstn (S len) (skipn start row)) p_arr).
Proof.
  induction len as [| len IH]; intro start.
  - reflexivity.
  - change (hstack (map (column_slice p_arr) (seq start (S (S len)))))
      with (r <- hstack (map (column_slice p_arr) (seq (S start) (S len))) ;;
            join_rows (column_slice p_arr start) r).
    rewrite IH. cbn [Py.bind]. unfold column_slice. rewrite join_rows_maps.
    f_equal. apply map_ext. intro row.
    replace (skipn (S start) row) with (skipn 1 (skipn start row))
      by (rewrite skipn_skipn; reflexivity).
    apply firstn_step.
Qed.

Lemma Forall2_slices (P : FrozenParams A) (p_arr : Array A)
  (names : list FlatParamName) :
  forall start,
    (forall i k, nth_error names i = Some k ->
                 flat_get P k = Some (Tensor2 (column_slice p_arr (start + i)))) ->
    Forall2 (fun name col => flat_get P name = Some (Tensor2 col))
            names
            (map (column_slice p_arr) (seq start (List.length names))).
Proof.
  induction names as [| k names IH]; intros start L; simpl; constructor.
  - rewrite <- (Nat.add_0_r start). now apply (L 0 k).
  - apply IH. intros i k' N. replace (S start + i) with (start + S i) by lia.
    now apply (L (S i) k').
Qed.

(** X17. For a background model whose declared names have pairwise
    different top-level keys and sub-names, in which ["weight"] does not name
    a group and some flattened name is other than [("weight",)]: when [p_arr]
    has exactly one column per flattened name other than [("weight",)], the
    unpacked entries, taken in the order of those names and joined along the
    column axis, give [p_arr] back. *)
Theorem unpack_columns_rejoin (self : BackgroundModel) (p_arr : Array A) (n : nat) :
  distinct_names (param_names self) ->
  (forall subs, ~ In (Grouped "weight"%string subs) (param_names self)) ->
  names_other_than_weight (param_names self) <> [] ->
  shaped n (List.length (names_other_than_weight (param_names self))) p_arr ->
  exists P cols,
    unpack_params_from_arr self p_arr = Ok P
    /\ Forall2 (fun name col => flat_get P name = Some (Tensor2 col))
               (names_other_than_weight (param_names self)) cols
    /\ hstack cols = Ok p_arr.
Proof.
  rewrite <- unpacked_names_other.
  intros D NG NE [_ F].
  destruct (unpack_lookup self p_arr D NG) as [P [E [_ [L _]]]].
  exists P, (map (column_slice p_arr) (seq 0 (List.length (unpacked_names self)))).
  split; [exact E |]. split; [now apply Forall2_slices |].
  destruct (unpacked_names self) as [| k names]; [contradiction |].
  cbn [List.length] in *. rewrite hstack_column_slices.
  f_equal. rewrite <- (map_id p_arr) at 2. apply map_ext_in.
  intros row I. rewrite Forall_forall in F. simpl skipn.
  apply firstn_all2. rewrite (F row I). lia.
Qed.

(** X18. For a background model whose declared names have pairwise
    different top-level keys and sub-names and in which ["weight"] does not
    name a group, a parameter array that is too narrow is not an error: for
    [p_arr] with [n] rows of [k] columns, the entry of the [i]-th flattened
    name other than [("weight",)] has [n] rows, of one column when [i < k]
    and of no column otherwise. *)
Theorem unpack_entry_shapes (self : BackgroundModel) (p_arr : Array A)
  (n k : nat) :
  distinct_names (param_names self) ->
  (forall subs, ~ In (Grouped "weight"%string subs) (param_names self)) ->
  shaped n k p_arr ->
  exists P,
    unpack_params_from_arr self p_arr = Ok P
    /\ forall i name,
         nth_error (names_other_than_weight (param_names self)) i = Some name ->
         exists col,
           flat_get P name = Some (Tensor2 col)
           /\ shaped n (if Nat.ltb i k then 1 else 0) col.
Proof.
  intros D NG [Ln F].
  destruct (unpack_lookup self p_arr D NG) as [P [E [_ [L _]]]].
  exists P. split; [exact E |]. intros i name N.
  rewrite <- unpacked_names_other in N.
  exists (column_slice p_arr i). split; [now apply L |].
  unfold column_slice. split; [now rewrite length_map |].
  apply Forall_map. eapply Forall_impl; [| exact F].
  intros row Lr. simpl in Lr. rewrite length_firstn, length_skipn, Lr.
  destruct (Nat.ltb i k) eqn:C.
  - apply Nat.ltb_lt in C. lia.
  - apply Nat.ltb_ge in C. lia.
Qed.

End Laws.

Section Examples.
Local Open Scope string_scope.

Lemma example_names_distinct :
  distinct_names [Flat "weight"; Grouped "phi2" ["mu"; "sigma"]].
Proof.
  split.
  - simpl. repeat constructor; simpl; intuition discriminate.
  - repeat constructor; simpl; intuition discriminate.
Qed.

Lemma example_no_weight_group (subs : list string) :
  ~ In (Grouped "weight" subs) [Flat "weight"; Grouped "phi2" ["mu"; "sigma"]].
Proof. intros [I | [I | []]]; discriminate. Qed.

Lemma unpack_columns_rejoin_witness :
  exists P cols,
    unpack_params_from_arr
      (mkBackground [Flat "weight"; Grouped "phi2" ["mu"; "sigma"]])
      [[1; 2]; [3; 4]] = Ok P
    /\ Forall2 (fun name col => flat_get P name = Some (Tensor2 col))
               (names_other_than_weight
                  [Flat "weight"; Grouped "phi2" ["mu"; "sigma"]])
               cols
    /\ hstack cols = Ok [[1; 2]; [3; 4]].
Proof.
  apply (@unpack_columns_rejoin nat
           (mkBackground [Flat "weight"; Grouped "phi2" ["mu"; "sigma"]])
           [[1; 2]; [3; 4]] 2).
  - exact example_names_distinct.
  - exact example_no_weight_group.
  - discriminate.
  - split; [reflexivity | repeat constructor].
Defined.

Lemma unpack_entry_shapes_witness :
  exists P,
    unpack_params_from_arr
      (mkBackground [Flat "weight"; Grouped "phi2" ["mu"; "sigma"]])
      [[1]; [3]] = Ok P
    /\ forall i name,
         nth_error (names_other_than_weight
                      [Flat "weight"; Grouped "phi2" ["mu"; "sigma"]])
                   i = Some name ->
         exists col,
           flat_get P name = Some (Tensor2 col)
           /\ shaped 2 (if Nat.ltb i 1 then 1 else 0) col.
Proof.
  apply (@unpack_entry_shapes nat
           (mkBackground [Flat "weight"; Grouped "phi2" ["mu"; "sigma"]])
           [[1]; [3]] 2 1).
  - exact example_names_distinct.
  - exact example_no_weight_group.
  - split; [reflexivity | repeat constructor].
Defined.

Example unpack_narrow_array :
  unpack_params_from_arr
    (mkBackground [Flat "weight"; Grouped "phi2" ["mu"; "sigma"]])
    [[1]; [3]]
  = Ok [("weight", PLeaf (Tensor1 []));
        ("phi2", PGroup [("mu", Tensor2 [[1]; [3]]);
                         ("sigma", Tensor2 [[]; []])])].
Proof. reflexivity. Qed.

End Examples.

End BackgroundLaws.
